(** * Attachment ingestion and chat history of the Gemini Discord bot

    A shallow embedding of the attachment pipeline (classification, fetch
    with retries, upload through a temporary file, construction of the
    request parts) and of the bounded history store (SQLite or in-memory),
    together with the properties established about them.

    Source files embedded here:
    - the attachment module with [classifyDiscordAttachment]
      (module [Attachments] below),
    - [bots/Fuku/utils/attachments.js] (module [Fuku] below),
    - [config.js], the history store (module [Store] below). *)

From Stdlib Require Import ZArith List String Ascii Bool Lia Sorted DecimalString DecimalPos DecimalN.
From stdpp Require Import base gmap strings list.

Local Open Scope string_scope.
Local Open Scope Z_scope.

(** * JavaScript values and strings *)

Module Js.

(** The Numbers the code can tell apart, each given by the decimal
    digits [Number::toString] works with: an integral Number by the
    integer these digits spell, any other finite Number by its integer
    part and the digits after the point. *)
Inductive JsNumber :=
| NInt (z : Z)
| NFrac (negative : bool) (int_part : N) (frac_digits : string)
| NNaN
| NInfinity (negative : bool).

Inductive JsVal :=
| JUndefined
| JNull
| JBool (b : bool)
| JNum (n : JsNumber)
| JStr (s : string).

(** [Number.isFinite(v)]: a Number that is neither NaN nor infinite. *)
Definition Number_isFinite (v : JsVal) : bool :=
  match v with
  | JNum (NInt _) | JNum (NFrac _ _ _) => true
  | _ => false
  end.

(** [typeof v === 'string' ? v : ''] *)
Definition stringOrEmpty (v : JsVal) : string :=
  match v with JStr s => s | _ => "" end.

(** Truthiness of a string: only the empty string is falsy. *)
Definition truthy (s : string) : bool :=
  match s with EmptyString => false | _ => true end.

(** [a || b] on strings. *)
Definition or_else (a b : string) : string := if truthy a then a else b.

(** [v || ''] for a field that holds a string, null or undefined. *)
Definition opt_str (v : option string) : string := default "" v.

(** [a || b] for two such fields, the result being a string or null. *)
Definition opt_or (a b : option string) : option string :=
  match a with
  | Some s => if truthy s then Some s else b
  | None => b
  end.

(** [String.prototype.startsWith] *)
Definition startsWith (s p : string) : bool := String.prefix p s.

Definition lower_ascii (c : ascii) : ascii :=
  let n := nat_of_ascii c in
  if ((65 <=? n)%nat && (n <=? 90)%nat)%bool then ascii_of_nat (n + 32) else c.

(** [String.prototype.toLowerCase] on ASCII text. *)
Fixpoint toLowerCase (s : string) : string :=
  match s with
  | EmptyString => EmptyString
  | String c r => String (lower_ascii c) (toLowerCase r)
  end.

(** White space and line terminators as [String.prototype.trim] and
    [Number.parseInt] skip them.  A string holds its text as the literals
    of this file do, in UTF-8, so the six of ASCII (tab, line feed,
    vertical tab, form feed, carriage return and space) take one
    character each and the others two or three. *)
Definition is_space (c : ascii) : bool :=
  let n := nat_of_ascii c in
  ((9 <=? n) && (n <=? 13) || (n =? 32))%nat.

(** The first byte of a white-space character of two bytes, and of one
    of three. *)
Definition lead2 (a : ascii) : bool := (nat_of_ascii a =? 194)%nat.

Definition lead3 (a : ascii) : bool :=
  let n := nat_of_ascii a in
  ((n =? 225) || (n =? 226) || (n =? 227) || (n =? 239))%nat.

(** U+00A0, the no-break space. *)
Definition white2 (a b : ascii) : bool :=
  ((nat_of_ascii a =? 194) && (nat_of_ascii b =? 160))%nat.

(** U+1680; U+2000 to U+200A, U+2028, U+2029 and U+202F; U+205F; U+3000;
    U+FEFF. *)
Definition white3 (a b c : ascii) : bool :=
  let x := nat_of_ascii a in
  let y := nat_of_ascii b in
  let z := nat_of_ascii c in
  ((x =? 225) && (y =? 154) && (z =? 128)
   || (x =? 226) && (y =? 128)
      && ((128 <=? z) && (z <=? 138) || (z =? 168) || (z =? 169) || (z =? 175))
   || (x =? 226) && (y =? 129) && (z =? 159)
   || (x =? 227) && (y =? 128) && (z =? 128)
   || (x =? 239) && (y =? 187) && (z =? 191))%nat.

(** [s.trim().length === 0]: the string is white space throughout. *)
Fixpoint all_white (s : string) : bool :=
  match s with
  | EmptyString => true
  | String a r =>
      if is_space a then all_white r
      else if lead2 a then
        match r with
        | String b r2 => white2 a b && all_white r2
        | EmptyString => false
        end
      else if lead3 a then
        match r with
        | String b (String c r3) => white3 a b c && all_white r3
        | _ => false
        end
      else false
  end.

(** The string without the white space it starts with. *)
Fixpoint skip_white (s : string) : string :=
  match s with
  | EmptyString => EmptyString
  | String a r =>
      if is_space a then skip_white r
      else if lead2 a then
        match r with
        | String b r2 => if white2 a b then skip_white r2 else s
        | EmptyString => s
        end
      else if lead3 a then
        match r with
        | String b (String c r3) => if white3 a b c then skip_white r3 else s
        | _ => s
        end
      else s
  end.

(** The decimal numeral of an integer. *)
Definition decimal (z : Z) : string := NilZero.string_of_int (Z.to_int z).

Definition is_dot (c : ascii) : bool := Ascii.eqb c ".".

Fixpoint has_dot (s : string) : bool :=
  match s with
  | EmptyString => false
  | String c r => is_dot c || has_dot r
  end.

(** [s.split('.').pop()]: the text after the last dot, the whole string
    when it has no dot. *)
Fixpoint split_dot_pop (s : string) : string :=
  match s with
  | EmptyString => EmptyString
  | String c r =>
      if has_dot r then split_dot_pop r
      else if is_dot c then r else s
  end.

(** The character class [[^./\\]]. *)
Definition ext_char (c : ascii) : bool :=
  negb (is_dot c || Ascii.eqb c "/" || Ascii.eqb c "\").

Fixpoint all_chars (p : ascii -> bool) (s : string) : bool :=
  match s with
  | EmptyString => true
  | String c r => p c && all_chars p r
  end.

(** [/(\.[^./\\]+)$/i.exec(s)]: the leftmost position where a dot is
    followed, up to the end of the string, by one or more characters that
    are no dot, slash or backslash; capture group 1 is the match itself. *)
Fixpoint regex_ext (s : string) : option string :=
  match s with
  | EmptyString => None
  | String c r =>
      if is_dot c && truthy r && all_chars ext_char r then Some s
      else regex_ext r
  end.

(** [path.dirname] for a path without trailing slash: everything before
    the last slash. *)
Fixpoint has_slash (s : string) : bool :=
  match s with
  | EmptyString => false
  | String c r => Ascii.eqb c "/" || has_slash r
  end.

Fixpoint dirname (s : string) : string :=
  match s with
  | EmptyString => EmptyString
  | String c r => if has_slash r then String c (dirname r) else EmptyString
  end.

(** [path.join(dir, file)] for a normalised [dir] and a single segment
    [file]: the two dot segments are resolved, anything else is appended. *)
Definition path_join (dir file : string) : string :=
  if String.eqb file "." then dir
  else if String.eqb file ".." then dirname dir
  else dir ++ "/" ++ file.

(** Errors as the runtime raises them: an [Error] with a message and, for
    file-system errors, a [code]. *)
Record JsError := mkError { code : option string; message : string }.

Definition Error (msg : string) : JsError := mkError None msg.

(** The result of running a piece of code: it returns or it throws. *)
Inductive Outcome (A : Type) :=
| Returned (a : A)
| Threw (e : JsError).
Arguments Returned {A} a.
Arguments Threw {A} e.

(** Code running over a mutable state [S]. *)
Definition M (S A : Type) : Type := S -> Outcome A * S.

Definition ret {S A} (a : A) : M S A := fun s => (Returned a, s).

Definition bind {S A B} (m : M S A) (k : A -> M S B) : M S B :=
  fun s => match m s with
           | (Returned a, s') => k a s'
           | (Threw e, s') => (Threw e, s')
           end.

Definition throw {S A} (e : JsError) : M S A := fun s => (Threw e, s).

(** [try { body } catch (error) { handler }] *)
Definition try_catch {S A} (body : M S A) (handler : JsError -> M S A) : M S A :=
  fun s => match body s with
           | (Returned a, s') => (Returned a, s')
           | (Threw e, s') => handler e s'
           end.

(** [try { body } finally { fin }]: [fin] always runs; when it throws, its
    error replaces the outcome of [body]. *)
Definition try_finally {S A} (body : M S A) (fin : M S unit) : M S A :=
  fun s => match body s with
           | (o, s') => match fin s' with
                        | (Returned _, s'') => (o, s'')
                        | (Threw e, s'') => (Threw e, s'')
                        end
           end.

(** [for (const x of items) { body }] *)
Fixpoint for_of {S A} (items : list A) (body : A -> M S unit) : M S unit :=
  match items with
  | [] => ret tt
  | x :: rest => bind (body x) (fun _ => for_of rest body)
  end.

End Js.

Declare Scope js_scope.
Delimit Scope js_scope with js.
Notation "x <- m ;; k" := (Js.bind m (fun x => k))
  (at level 100, m at next level, right associativity) : js_scope.
Notation "m ;;; k" := (Js.bind m (fun _ => k))
  (at level 100, right associativity) : js_scope.

Local Open Scope js_scope.

(** * The runtime the attachment code talks to: network, file system,
      upload API, console *)

Module Node.
Import Js.

Definition Buffer := list Byte.byte.

(** [buffer.length] *)
Definition buffer_length (b : Buffer) : Z := Z.of_nat (length b).

Inductive Kind := KDir | KFile.

(** What the code does to the outside, in order. *)
Inductive Event :=
| EGet (url : string)
| EWait (ms : Z)
| EWarn (msg : string)
| EMkdtemp (prefix : string)
| EWriteFile (path : string)
| EUploadFile (path mimeType displayName : string)
| EUnlink (path : string)
| ERm (path : string).

(** The file object of an upload response, and the response, which may
    carry the file under [file] or be the file itself. *)
Record UploadedFile := mkUploadedFile {
  uf_name : string;
  uf_uri : string;
  uf_fileUri : string;
  uf_mimeType : string
}.

Record UploadResponse := mkUploadResponse {
  resp_file : option UploadedFile;
  resp_self : UploadedFile
}.

(** The behaviour of the outside world.  Every external call takes the next
    tick, so two calls with the same arguments may end differently. *)
Record Env := mkEnv {
  axios_get : nat -> string -> JsError + Buffer;
  fs_fault : nat -> option JsError;
  random_suffix : nat -> string;
  random_hex : nat -> string;
  upload_api : nat -> string -> string -> string -> JsError + option UploadResponse;
  os_tmpdir : string;
  path_extname : string -> string;
  base64 : Buffer -> string;
  utf8 : Buffer -> string
}.

Record World := mkWorld {
  tick : nat;
  trace : list Event;
  fsys : gmap string Kind
}.

Definition emit (e : Event) : M World unit :=
  fun w => (Returned tt, mkWorld (tick w) (trace w ++ [e]) (fsys w)).

Definition next_tick : M World nat :=
  fun w => (Returned (tick w), mkWorld (S (tick w)) (trace w) (fsys w)).

Definition set_fsys (f : gmap string Kind -> gmap string Kind) : M World unit :=
  fun w => (Returned tt, mkWorld (tick w) (trace w) (f (fsys w))).

Definition get_fsys : M World (gmap string Kind) :=
  fun w => (Returned (fsys w), w).

Definition console_warn (msg : string) : M World unit := emit (EWarn msg).

(** [wait(ms)]: a timer of [ms] milliseconds. *)
Definition wait (ms : Z) : M World unit := emit (EWait ms).

Definition ENOENT (path : string) : JsError :=
  mkError (Some "ENOENT") ("no such file or directory: " ++ path).
Definition EEXIST (path : string) : JsError :=
  mkError (Some "EEXIST") ("file already exists: " ++ path).
Definition EISDIR (path : string) : JsError :=
  mkError (Some "EISDIR") ("illegal operation on a directory: " ++ path).

Section Calls.
Variable env : Env.

(** [axios.get(url, { responseType: 'arraybuffer', timeout, maxContentLength })],
    a time-out or an oversized response being one of its errors; without a
    URL the request cannot be built and the call fails at once. *)
Definition http_get (url : option string) : M World Buffer :=
  match url with
  | None => throw (Error "Invalid URL")
  | Some url =>
      t <- next_tick ;;
      emit (EGet url) ;;;
      match axios_get env t url with
      | inl e => throw e
      | inr b => ret b
      end
  end.

(** [fs.mkdtemp(prefix)] *)
Definition fs_mkdtemp (prefix : string) : M World string :=
  t <- next_tick ;;
  emit (EMkdtemp prefix) ;;;
  match fs_fault env t with
  | Some e => throw e
  | None =>
      let dir := prefix ++ random_suffix env t in
      fs <- get_fsys ;;
      match fs !! dir with
      | Some _ => throw (EEXIST dir)
      | None => set_fsys (insert dir KDir) ;;; ret dir
      end
  end.

(** A path is a directory when it was made as one, when it is the
    system's temporary directory, or when something exists beneath it. *)
Definition is_directory (fs : gmap string Kind) (path : string) : bool :=
  String.eqb path (os_tmpdir env)
  || match fs !! path with Some KDir => true | _ => false end
  || bool_decide (map_Exists (fun p _ => String.prefix (path ++ "/") p = true) fs).

(** [fs.writeFile(path, buffer)] *)
Definition fs_writeFile (path : string) (buffer : Buffer) : M World unit :=
  t <- next_tick ;;
  emit (EWriteFile path) ;;;
  match fs_fault env t with
  | Some e => throw e
  | None =>
      fs <- get_fsys ;;
      if is_directory fs path then throw (EISDIR path)
      else set_fsys (insert path KFile)
  end.

(** [fs.unlink(path)] *)
Definition fs_unlink (path : string) : M World unit :=
  t <- next_tick ;;
  emit (EUnlink path) ;;;
  match fs_fault env t with
  | Some e => throw e
  | None =>
      fs <- get_fsys ;;
      match fs !! path with
      | Some KFile => set_fsys (delete path)
      | Some KDir => throw (EISDIR path)
      | None => throw (ENOENT path)
      end
  end.

Definition under (dir path : string) : bool :=
  String.eqb path dir || String.prefix (dir ++ "/") path.

(** [fs.rm(dir, { recursive: true, force: true })] *)
Definition fs_rm (dir : string) : M World unit :=
  t <- next_tick ;;
  emit (ERm dir) ;;;
  match fs_fault env t with
  | Some e => throw e
  | None => set_fsys (filter (fun kv => under dir (fst kv) = false))
  end.

(** [manager.uploadFile(filePath, { mimeType, displayName })] *)
Definition manager_uploadFile (filePath mimeType displayName : string)
  : M World (option UploadResponse) :=
  t <- next_tick ;;
  emit (EUploadFile filePath mimeType displayName) ;;;
  match upload_api env t filePath mimeType displayName with
  | inl e => throw e
  | inr r => ret r
  end.

(** [crypto.randomBytes(6).toString('hex')] *)
Definition crypto_randomHex : M World string :=
  t <- next_tick ;;
  ret (random_hex env t).

End Calls.

(** The parts of a request. *)
Inductive Part :=
| TextPart (text : string)
| InlineDataPart (mimeType data : string)
| FileRefPart (fileUri mimeType : string).

(** An attachment as [parseDiscordAttachments] hands it to the builder:
    [name] and [mimeType] are strings (empty when missing), [size] is a
    Number or null, [url] a string or missing. *)
Record Item := mkItem {
  url : option string;
  name : string;
  size : JsVal;
  mimeType : string
}.

(** The builder's local [parts] array next to the world. *)
Record Build := mkBuild { parts : list Part; world : World }.

Definition io {A} (m : M World A) : M Build A :=
  fun s => match m (world s) with
           | (o, w) => (o, mkBuild (parts s) w)
           end.

(** [parts.push(p)] *)
Definition parts_push (p : Part) : M Build unit :=
  fun s => (Returned tt, mkBuild (parts s ++ [p]) (world s)).

Definition get_parts : M Build (list Part) :=
  fun s => (Returned (parts s), s).

(** Runs a builder from an empty [parts] array. *)
Definition run_build {A} (m : M Build A) : M World A :=
  fun w => match m (mkBuild [] w) with
           | (o, s) => (o, world s)
           end.

End Node.

(** * The attachment module with the classifier *)

Module Attachments.
Import Js Node.

Definition INLINE_LIMIT_IMAGE_BYTES : Z := 8 * 1024 * 1024.
Definition INLINE_LIMIT_TEXT_BYTES : Z := 1 * 1024 * 1024.

Definition IMAGE_EXTS : gset string :=
  list_to_set [".png"; ".jpg"; ".jpeg"; ".webp"; ".gif"; ".bmp"; ".tiff"; ".tif"; ".heic"].

Definition TEXT_EXTS : gset string :=
  list_to_set [".txt"; ".md"; ".csv"; ".json"; ".xml"; ".log"; ".yaml"; ".yml"].

Definition MIME_BY_EXTENSION : gmap string string :=
  list_to_map
    [ (".png", "image/png"); (".jpg", "image/jpeg"); (".jpeg", "image/jpeg");
      (".webp", "image/webp"); (".gif", "image/gif"); (".bmp", "image/bmp");
      (".tiff", "image/tiff"); (".tif", "image/tiff"); (".heic", "image/heic");
      (".svg", "image/svg+xml"); (".pdf", "application/pdf");
      (".txt", "text/plain"); (".md", "text/markdown"); (".csv", "text/csv");
      (".json", "application/json"); (".xml", "application/xml");
      (".log", "text/plain"); (".yaml", "application/x-yaml");
      (".yml", "application/x-yaml") ].

Definition RETRY_ATTEMPTS : Z := 3.
Definition RETRY_DELAY_MS : Z := 500.

(** [set.has(x)] *)
Definition has (s : gset string) (x : string) : bool := bool_decide (x ∈ s).

(** [table[key] || fallback] *)
Definition lookup_or (table : gmap string string) (key fallback : string) : string :=
  or_else (default "" (table !! key)) fallback.

Definition extToMime (name : string) : string :=
  let ext := toLowerCase (or_else (split_dot_pop name) "") in
  if String.eqb ext "png" then "image/png"
  else if String.eqb ext "jpg" || String.eqb ext "jpeg" then "image/jpeg"
  else if String.eqb ext "webp" then "image/webp"
  else if String.eqb ext "gif" then "image/gif"
  else if String.eqb ext "bmp" then "image/bmp"
  else if String.eqb ext "tif" || String.eqb ext "tiff" then "image/tiff"
  else if String.eqb ext "heic" then "image/heic"
  else lookup_or MIME_BY_EXTENSION ("." ++ ext) "application/octet-stream".

(** A raw attachment of a Discord message. *)
Record DiscordAttachment := mkAttachment {
  att_name : option string;
  att_contentType : JsVal;
  att_size : JsVal;
  att_width : JsVal;
  att_height : JsVal;
  att_url : option string;
  att_proxyURL : option string
}.

Record Classified := mkClassified {
  isImage : bool;
  c_mimeType : string;
  c_name : string;
  c_size : JsVal;
  c_url : option string;
  c_width : JsVal;
  c_height : JsVal
}.

(** [Number.isFinite(v) ? v : null] *)
Definition finite_or_null (v : JsVal) : JsVal :=
  if Number_isFinite v then v else JNull.

(** The extension the classifier reads off a name: group 1 of the regular
    expression, lower-cased, or the empty string. *)
Definition classify_ext (name : string) : string :=
  match regex_ext name with
  | Some e => if truthy e then toLowerCase e else ""
  | None => ""
  end.

Definition classifyDiscordAttachment (attachment : DiscordAttachment) : Classified :=
  let name := opt_str (att_name attachment) in
  let providedMime := stringOrEmpty (att_contentType attachment) in
  let ext := classify_ext name in
  let hasMime := startsWith providedMime "image/" in
  let hasExt := has IMAGE_EXTS ext in
  let hasDimensions :=
    Number_isFinite (att_width attachment) && Number_isFinite (att_height attachment) in
  let isImage := hasMime || hasExt || hasDimensions in
  let mimeType :=
    or_else providedMime
      (if hasExt then extToMime name
       else if hasDimensions then "image/png"
       else lookup_or MIME_BY_EXTENSION ext "application/octet-stream") in
  let size := finite_or_null (att_size attachment) in
  let url := opt_or (att_url attachment) (att_proxyURL attachment) in
  mkClassified isImage mimeType name size url
    (finite_or_null (att_width attachment)) (finite_or_null (att_height attachment)).

(** The object [parseDiscordAttachments] makes of a classified
    attachment. *)
Record Normalized := mkNormalized {
  n_url : option string;
  n_name : string;
  n_size : JsVal;
  n_mimeType : string;
  n_width : JsVal;
  n_height : JsVal
}.

Record Parsed := mkParsed {
  images : list Normalized;
  files : list Normalized;
  hasImages : bool;
  hasFiles : bool
}.

(** What the builder reads of such an object. *)
Definition item_of (n : Normalized) : Item :=
  mkItem (n_url n) (n_name n) (n_size n) (n_mimeType n).

(** The body of the loop of [parseDiscordAttachments], over the two
    arrays. *)
Definition parse_step (acc : list Normalized * list Normalized) (raw : DiscordAttachment)
  : list Normalized * list Normalized :=
  let classified := classifyDiscordAttachment raw in
  if negb (truthy (opt_str (c_url classified))) then acc
  else
    let normalized :=
      mkNormalized (c_url classified) (c_name classified) (c_size classified)
        (c_mimeType classified) (c_width classified) (c_height classified) in
    if isImage classified then ((fst acc ++ [normalized])%list, snd acc)
    else (fst acc, (snd acc ++ [normalized])%list).

(** [message] is the attachments of the message in their order, a
    collection or an array, or [None] when there is no message or it has
    no [attachments]. *)
Definition parseDiscordAttachments (message : option (list DiscordAttachment)) : Parsed :=
  match message with
  | None => mkParsed [] [] false false
  | Some attachments =>
      let (images, files) := foldl parse_step ([], []) attachments in
      mkParsed images files (0 <? length images)%nat (0 <? length files)%nat
  end.

(** [x.toFixed(digits)] for the quotient [x] of [bytes] by [scale] and
    [digits] 0 or 1: the numeral with that many digits after the point
    that is nearest to [x], the larger of two that are equally near. *)
Definition toFixed (bytes scale digits : Z) : string :=
  if digits =? 0 then decimal ((2 * bytes + scale) / (2 * scale))
  else
    let n := (20 * bytes + scale) / (2 * scale) in
    decimal (n / 10) ++ "." ++ decimal (n mod 10).

(** [units[exponent]] *)
Definition units (exponent : Z) : string :=
  if exponent =? 0 then "B"
  else if exponent =? 1 then "KB"
  else if exponent =? 2 then "MB"
  else "GB".

(** [formatSize(bytes)] for an integral [bytes], which is what
    [buffer.length] is.  On the lengths a Buffer can have, below 2^53,
    the floating-point steps of the source lose nothing:
    [Math.floor(Math.log(bytes) / Math.log(1024))] is the floor of the
    logarithm to base 1024, a tenth of the binary one, and the division
    by a power of 1024 is exact. *)
Definition formatSize (bytes : Z) : string :=
  if bytes <? 0 then "unknown size"
  else if bytes =? 0 then "0 B"
  else
    let exponent := Z.min (Z.log2 bytes / 10) 3 in
    let scale := 1024 ^ exponent in
    toFixed bytes scale (if (bytes <? 10 * scale) && (0 <? exponent) then 1 else 0)
    ++ " " ++ units exponent.

Section WithEnv.
Variable env : Env.

Definition normalizeMimeType (name mimeType : string) : string :=
  if truthy mimeType then mimeType
  else
    let ext := toLowerCase (path_extname env name) in
    lookup_or MIME_BY_EXTENSION ext "application/octet-stream".

Definition isTextLikeAttachment (name mimeType : string) : bool :=
  if startsWith mimeType "text/" then true
  else
    let ext := toLowerCase (path_extname env name) in
    if has TEXT_EXTS ext then true
    else if String.eqb mimeType "application/json" || String.eqb mimeType "application/xml"
    then true
    else false.

(** The value [undefined], which [throw lastError] would raise had no
    attempt been made. *)
Definition thrown_undefined : JsError := mkError None "undefined".

(** The retry loop of [fetchAsBuffer], over the attempt numbers still to
    run. *)
Fixpoint fetch_attempts (url : option string) (attempts : list Z) (lastError : option JsError)
  : M World Buffer :=
  match attempts with
  | [] => throw (default thrown_undefined lastError)
  | attempt :: rest =>
      r <- try_catch
             (b <- http_get env url ;; ret (inl b))
             (fun error =>
                (if attempt <? RETRY_ATTEMPTS then wait (RETRY_DELAY_MS * attempt)
                 else ret tt) ;;;
                ret (inr error)) ;;
      match r with
      | inl b => ret b
      | inr error => fetch_attempts url rest (Some error)
      end
  end.

Definition fetchAsBuffer (url : option string) : M World Buffer :=
  fetch_attempts url (seqZ 1 RETRY_ATTEMPTS) None.

Definition toBase64 (buffer : Buffer) : string := base64 env buffer.

(** [x > 0] and [x > limit] for a Number [x]. *)
Definition num_gt (x : JsNumber) (limit : Z) : bool :=
  match x with
  | NInt z => limit <? z
  | NFrac false ip _ => limit <=? Z.of_N ip
  | NFrac true ip _ => Z.of_N ip <? - limit
  | NNaN => false
  | NInfinity negative => negb negative
  end.

(** [Number.isFinite(size) && size > 0 ? size : buffer.length] *)
Definition actualSize (size : JsVal) (buffer : Buffer) : JsNumber :=
  match size with
  | JNum x => if Number_isFinite size && num_gt x 0 then x else NInt (buffer_length buffer)
  | _ => NInt (buffer_length buffer)
  end.

Definition maybeInlineImage (buffer : Buffer) (mimeType : string) (size : JsVal)
    (maxInlineSize : Z) : option Part :=
  if negb (startsWith mimeType "image/") then None
  else if num_gt (actualSize size buffer) maxInlineSize then None
  else Some (InlineDataPart mimeType (toBase64 buffer)).

Definition safe_char (c : ascii) : bool :=
  let n := nat_of_ascii c in
  ((97 <=? n) && (n <=? 122) || (65 <=? n) && (n <=? 90) || (48 <=? n) && (n <=? 57))%nat
  || Ascii.eqb c "_" || Ascii.eqb c "." || Ascii.eqb c "-".

(** [s.replace(/[^a-zA-Z0-9_.-]/g, '_')] *)
Fixpoint sanitize (s : string) : string :=
  match s with
  | EmptyString => EmptyString
  | String c r => String (if safe_char c then c else "_"%char) (sanitize r)
  end.

Definition generateTempFilePath (name : string) : M World string :=
  safeName <- (if truthy name then ret name
               else (h <- crypto_randomHex env ;; ret ("upload-" ++ h))) ;;
  ret (sanitize safeName).

(** [uploadResponse?.file ?? uploadResponse] *)
Definition uploaded_file (r : option UploadResponse) : option UploadedFile :=
  match r with
  | None => None
  | Some r => Some (default (resp_self r) (resp_file r))
  end.

(** [uploadedFile?.name || uploadedFile?.uri || uploadedFile?.fileUri] *)
Definition file_handle (f : option UploadedFile) : string :=
  match f with
  | None => ""
  | Some f => or_else (uf_name f) (or_else (uf_uri f) (uf_fileUri f))
  end.

(** The [finally] block of the upload. *)
Definition upload_cleanup (filePath tmpDir : string) : M World unit :=
  try_catch (fs_unlink env filePath)
    (fun error =>
       if bool_decide (code error <> Some "ENOENT")
       then console_warn ("[ATTACHMENTS] Failed to remove temp file: " ++ message error)
       else ret tt) ;;;
  try_catch (fs_rm env tmpDir)
    (fun error =>
       if bool_decide (code error <> Some "ENOENT")
       then console_warn ("[ATTACHMENTS] Failed to remove temp directory: " ++ message error)
       else ret tt).

(** The [try] block of the upload. *)
Definition upload_request (handle : option UploadedFile -> string)
    (filePath fileName mimeType name : string) : M World Part :=
  uploadResponse <- manager_uploadFile env filePath
                      (or_else mimeType "application/octet-stream")
                      (or_else name fileName) ;;
  let uploadedFile := uploaded_file uploadResponse in
  let fileHandle := handle uploadedFile in
  if negb (truthy fileHandle)
  then throw (Error "Upload response did not include a file URI.")
  else ret (FileRefPart fileHandle
              (or_else mimeType
                 (or_else (from_option uf_mimeType "" uploadedFile)
                    "application/octet-stream"))).

(** The body shared by the two modules, which differ in the order in which
    they read the handle off the response. *)
Definition upload_with (handle : option UploadedFile -> string)
    (buffer : Buffer) (mimeType name apiKey : string) : M World Part :=
  if negb (truthy apiKey) then throw (Error "Missing Gemini API key for file upload.")
  else
    tmpDir <- fs_mkdtemp env (path_join (os_tmpdir env) "gemini-upload-") ;;
    fileName <- generateTempFilePath name ;;
    let filePath := path_join tmpDir fileName in
    fs_writeFile env filePath buffer ;;;
    try_finally (upload_request handle filePath fileName mimeType name)
                (upload_cleanup filePath tmpDir).

Definition uploadToGeminiFileAPI := upload_with file_handle.

Record BuildInput := mkInput {
  in_text : JsVal;
  in_images : list Item;
  in_files : list Item;
  in_apiKey : string;
  in_maxInlineSize : option Z
}.

(** The [try] block of the loop over the images. *)
Definition image_try (apiKey : string) (maxInlineSize : Z) (image : Item) : M Build unit :=
  buffer <- io (fetchAsBuffer (url image)) ;;
  let mimeType :=
    or_else (mimeType image)
      (or_else (normalizeMimeType (name image) (mimeType image)) "image/png") in
  match maybeInlineImage buffer mimeType (size image) maxInlineSize with
  | Some inlinePart => parts_push inlinePart
  | None =>
      if negb (truthy apiKey) then
        io (console_warn
              "[ATTACHMENTS] Image exceeds inline limit and no upload path available.") ;;;
        parts_push (TextPart ("Attached image " ++ or_else (name image) "" ++ " ("
                              ++ mimeType
                              ++ ") was too large to inline and could not be uploaded."))
      else
        uploadedPart <- io (uploadToGeminiFileAPI buffer
                              (or_else mimeType "application/octet-stream")
                              (name image) apiKey) ;;
        parts_push uploadedPart
  end.

(** Its [catch] block. *)
Definition image_catch (image : Item) (error : JsError) : M Build unit :=
  io (console_warn ("[ATTACHMENTS] Image handling error: " ++ message error)) ;;;
  let label := or_else (name image) "image attachment" in
  parts_push (TextPart ("Attached image could not be processed (" ++ label ++ ").")).

(** The body of the loop over the images. *)
Definition image_step (apiKey : string) (maxInlineSize : Z) (image : Item) : M Build unit :=
  if negb (truthy (opt_str (url image))) then ret tt
  else try_catch (image_try apiKey maxInlineSize image) (image_catch image).

(** The text the builder puts in front of the decoded contents of a
    text-like file; the limit is printed in decimal. *)
Definition contents_header (label : string) : string :=
  "Contents of " ++ label ++ " (truncated to "
  ++ NilZero.string_of_int (Z.to_int INLINE_LIMIT_TEXT_BYTES)
  ++ " bytes if necessary):" ++ String "010" (String "010" "").

(** The [try] block of the loop over the files. *)
Definition file_try (apiKey : string) (file : Item) : M Build unit :=
  buffer <- io (fetchAsBuffer (url file)) ;;
  let size := buffer_length buffer in
  let mimeType :=
    or_else (mimeType file)
      (or_else (normalizeMimeType (name file) "") "application/octet-stream") in
  let label := or_else (name file) "file attachment" in
  let descriptor := label ++ " (" ++ mimeType ++ ", " ++ formatSize size ++ ")" in
  parts_push (TextPart ("Attached file: " ++ descriptor ++ ".")) ;;;
  let isText := isTextLikeAttachment (name file) mimeType in
  (if isText && (size <=? INLINE_LIMIT_TEXT_BYTES)
   then parts_push (TextPart (contents_header label ++ utf8 env buffer))
   else ret tt) ;;;
  if truthy apiKey then
    uploadedPart <- io (uploadToGeminiFileAPI buffer mimeType label apiKey) ;;
    parts_push uploadedPart
  else
    io (console_warn ("[ATTACHMENTS] Gemini API key missing; file upload skipped for "
                      ++ label)).

(** Its [catch] block. *)
Definition file_catch (file : Item) (error : JsError) : M Build unit :=
  io (console_warn ("[ATTACHMENTS] File handling error: " ++ message error)) ;;;
  let label := or_else (name file) "file attachment" in
  parts_push (TextPart ("Attached file received but preview unavailable: " ++ label
                        ++ " (" ++ or_else (mimeType file) "unknown type" ++ ").")).

(** The body of the loop over the files. *)
Definition file_step (apiKey : string) (file : Item) : M Build unit :=
  if negb (truthy (opt_str (url file))) then ret tt
  else try_catch (file_try apiKey file) (file_catch file).

Definition build_body (input : BuildInput) : M Build (list Part) :=
  let apiKey := in_apiKey input in
  let maxInlineSize := default 4000000 (in_maxInlineSize input) in
  let safeText := stringOrEmpty (in_text input) in
  parts_push (TextPart safeText) ;;;
  (if negb (truthy apiKey)
   then io (console_warn "[ATTACHMENTS] No Gemini apiKey: uploads will be skipped.")
   else ret tt) ;;;
  for_of (in_images input) (image_step apiKey maxInlineSize) ;;;
  for_of (in_files input) (file_step apiKey) ;;;
  ps <- get_parts ;;
  (if (length ps =? 0)%nat then parts_push (TextPart "") else ret tt) ;;;
  get_parts.

Definition buildGeminiParts (input : BuildInput) : M World (list Part) :=
  run_build (build_body input).

End WithEnv.
End Attachments.

(** * [bots/Fuku/utils/attachments.js] *)

Module Fuku.
Import Js Node.

Definition INLINE_LIMIT_IMAGE_BYTES : Z := 8 * 1024 * 1024.
Definition INLINE_LIMIT_TEXT_BYTES : Z := 1 * 1024 * 1024.

Definition IMAGE_EXTS : gset string :=
  list_to_set [".png"; ".jpg"; ".jpeg"; ".webp"; ".gif"].

Definition MIME_BY_EXTENSION : gmap string string :=
  list_to_map
    [ (".png", "image/png"); (".jpg", "image/jpeg"); (".jpeg", "image/jpeg");
      (".webp", "image/webp"); (".gif", "image/gif"); (".bmp", "image/bmp");
      (".tiff", "image/tiff"); (".svg", "image/svg+xml"); (".pdf", "application/pdf");
      (".txt", "text/plain"); (".md", "text/markdown"); (".csv", "text/csv");
      (".json", "application/json"); (".xml", "application/xml");
      (".log", "text/plain"); (".yaml", "application/x-yaml");
      (".yml", "application/x-yaml") ].

Section WithEnv.
Variable env : Env.

Definition normalizeMimeType (name mimeType : string) : string :=
  if truthy mimeType then mimeType
  else
    let ext := toLowerCase (path_extname env name) in
    Attachments.lookup_or MIME_BY_EXTENSION ext "".

Definition isImageAttachment (name mimeType : string) : bool :=
  let ext := toLowerCase (path_extname env name) in
  if Attachments.has IMAGE_EXTS ext then true
  else if startsWith mimeType "image/" then true
  else false.

(** The same text as in the other module, over the same set of extensions. *)
Definition isTextLikeAttachment := Attachments.isTextLikeAttachment env.

(** The same text as in the other module, with the same two constants. *)
Definition fetchAsBuffer := Attachments.fetchAsBuffer env.

(** [typeof size === 'number' && size > 0 ? size : buffer.length] *)
Definition actualSize (size : JsVal) (buffer : Buffer) : JsNumber :=
  match size with
  | JNum x => if Attachments.num_gt x 0 then x else NInt (buffer_length buffer)
  | _ => NInt (buffer_length buffer)
  end.

Definition maybeInlineImage (buffer : Buffer) (mimeType : string) (size : JsVal)
  : option Part :=
  if negb (startsWith mimeType "image/") then None
  else if Attachments.num_gt (actualSize size buffer) INLINE_LIMIT_IMAGE_BYTES then None
  else Some (InlineDataPart mimeType (Attachments.toBase64 env buffer)).

(** [uploadedFile?.uri || uploadedFile?.fileUri || uploadedFile?.name] *)
Definition file_handle (f : option UploadedFile) : string :=
  match f with
  | None => ""
  | Some f => or_else (uf_uri f) (or_else (uf_fileUri f) (uf_name f))
  end.

Definition uploadToGeminiFileAPI := Attachments.upload_with env file_handle.

(** [s.trim().length > 0] *)
Definition trim_nonempty (s : string) : bool := negb (all_white s).

(** An attachment as discord.js hands it over: [name], [contentType] and
    [url] are strings or missing, [size] any value. *)
Record RawAttachment := mkRaw {
  raw_name : option string;
  raw_contentType : option string;
  raw_size : JsVal;
  raw_url : option string
}.

(** [typeof size === 'number' ? size : 0] *)
Definition number_or_zero (v : JsVal) : JsVal :=
  match v with JNum _ => v | _ => JNum (NInt 0) end.

(** The body of the loop of [parseDiscordAttachments]. *)
Definition parse_step (acc : list Item * list Item) (attachment : RawAttachment)
  : list Item * list Item :=
  let name := opt_str (raw_name attachment) in
  let size := number_or_zero (raw_size attachment) in
  let providedMime := opt_str (raw_contentType attachment) in
  let mimeType := normalizeMimeType name providedMime in
  let item := mkItem (raw_url attachment) name size mimeType in
  if isImageAttachment name mimeType then ((fst acc ++ [item])%list, snd acc)
  else (fst acc, (snd acc ++ [item])%list).

Record Parsed := mkParsed {
  images : list Item;
  files : list Item;
  hasImages : bool;
  hasFiles : bool
}.

(** [message] is the collection [message.attachments] in its order,
    [None] when there is no message or no collection; an empty collection
    has [size] 0 and is passed over. *)
Definition parseDiscordAttachments (message : option (list RawAttachment)) : Parsed :=
  let (images, files) :=
    match message with
    | Some attachments =>
        if (0 <? length attachments)%nat then foldl parse_step ([], []) attachments
        else ([], [])
    | None => ([], [])
    end in
  mkParsed images files (0 <? length images)%nat (0 <? length files)%nat.

Record BuildInput := mkInput {
  in_text : JsVal;
  in_images : list Item;
  in_files : list Item;
  in_apiKey : string
}.

(** The [try] block of the loop over the images. *)
Definition image_try (apiKey : string) (image : Item) : M Build unit :=
  buffer <- io (fetchAsBuffer (url image)) ;;
  let mimeType := or_else (mimeType image) (normalizeMimeType (name image) "") in
  match maybeInlineImage buffer (or_else mimeType "image/png") (size image) with
  | Some inlinePart => parts_push inlinePart
  | None =>
      uploadedPart <- io (uploadToGeminiFileAPI buffer
                            (or_else mimeType "application/octet-stream")
                            (name image) apiKey) ;;
      parts_push uploadedPart
  end.

(** The [catch] blocks are those of the other module, word for word. *)
Definition image_catch := Attachments.image_catch.

(** The body of the loop over the images. *)
Definition image_step (apiKey : string) (image : Item) : M Build unit :=
  try_catch (image_try apiKey image) (image_catch image).

(** The [try] block of the loop over the files. *)
Definition file_try (apiKey : string) (file : Item) : M Build unit :=
  buffer <- io (fetchAsBuffer (url file)) ;;
  let size := buffer_length buffer in
  let mimeType :=
    or_else (mimeType file)
      (or_else (normalizeMimeType (name file) "") "application/octet-stream") in
  let label := or_else (name file) "file attachment" in
  let descriptor :=
    label ++ " (" ++ mimeType ++ ", " ++ Attachments.formatSize size ++ ")" in
  parts_push (TextPart ("Attached file: " ++ descriptor ++ ".")) ;;;
  let isText := isTextLikeAttachment (name file) mimeType in
  (if isText && (size <=? INLINE_LIMIT_TEXT_BYTES)
   then parts_push (TextPart (Attachments.contents_header label ++ utf8 env buffer))
   else ret tt) ;;;
  if truthy apiKey then
    uploadedPart <- io (uploadToGeminiFileAPI buffer mimeType label apiKey) ;;
    parts_push uploadedPart
  else
    io (console_warn ("[ATTACHMENTS] Gemini API key missing; file upload skipped for "
                      ++ label)).

Definition file_catch := Attachments.file_catch.

(** The body of the loop over the files. *)
Definition file_step (apiKey : string) (file : Item) : M Build unit :=
  try_catch (file_try apiKey file) (file_catch file).

Definition build_body (input : BuildInput) : M Build (list Part) :=
  let apiKey := in_apiKey input in
  let safeText := stringOrEmpty (in_text input) in
  (if trim_nonempty safeText then parts_push (TextPart safeText) else ret tt) ;;;
  for_of (in_images input) (image_step apiKey) ;;;
  for_of (in_files input) (file_step apiKey) ;;;
  ps <- get_parts ;;
  (if (length ps =? 0)%nat then parts_push (TextPart "") else ret tt) ;;;
  get_parts.

Definition buildGeminiParts (input : BuildInput) : M World (list Part) :=
  run_build (build_body input).

End WithEnv.
End Fuku.

(** * [config.js]: the history store *)

Module Store.
Import Js.

(** ** [String(x)] for a Number *)

Fixpoint all_zero (s : string) : bool :=
  match s with
  | EmptyString => true
  | String c r => Ascii.eqb c "0" && all_zero r
  end.

(** A digit string without the zeros it ends in, and without those it
    starts with. *)
Fixpoint strip_zeros_end (s : string) : string :=
  match s with
  | EmptyString => EmptyString
  | String c r => if Ascii.eqb c "0" && all_zero r then "" else String c (strip_zeros_end r)
  end.

Fixpoint skip_zeros (s : string) : string :=
  match s with
  | EmptyString => EmptyString
  | String c r => if Ascii.eqb c "0" then skip_zeros r else s
  end.

Fixpoint leading_zeros (s : string) : Z :=
  match s with
  | EmptyString => 0
  | String c r => if Ascii.eqb c "0" then 1 + leading_zeros r else 0
  end.

(** The exponent notation of [Number::toString]: the first significant
    digit, the others behind a point when there are any, then [e], the
    sign of the exponent and the exponent. *)
Definition exponent_form (significant : string) (e : Z) : string :=
  match significant with
  | EmptyString => "0"
  | String d rest =>
      String d ((if truthy rest then "." ++ rest else "")
                ++ (if e <? 0 then "e-" else "e+") ++ decimal (Z.abs e))
  end.

(** [Number::toString]: a Number of 21 digits or fewer before the point
    is printed in full, and so is a fraction with fewer than six zeros
    after the point; a Number of 1e21 or more and a fraction below 1e-6
    are printed in exponent notation. *)
Definition number_to_string (x : JsNumber) : string :=
  match x with
  | NInt z =>
      if Z.abs z <? 10 ^ 21 then decimal z
      else
        let ds := decimal (Z.abs z) in
        (if z <? 0 then "-" else "")
        ++ exponent_form (strip_zeros_end ds) (Z.of_nat (String.length ds) - 1)
  | NFrac negative ip fd =>
      let sign := if negative then "-" else "" in
      let ds := decimal (Z.of_N ip) in
      if 0 <? Z.of_N ip then
        if Z.of_N ip <? 10 ^ 21 then sign ++ ds ++ "." ++ fd
        else sign ++ exponent_form (strip_zeros_end (ds ++ fd))
                       (Z.of_nat (String.length ds) - 1)
      else if negb (truthy (skip_zeros fd)) then "0"
      else if leading_zeros fd <? 6 then sign ++ "0." ++ fd
      else sign ++ exponent_form (strip_zeros_end (skip_zeros fd)) (- (leading_zeros fd + 1))
  | NNaN => "NaN"
  | NInfinity negative => if negative then "-Infinity" else "Infinity"
  end.

(** [String(value ?? '')] *)
Definition to_string_or_empty (v : JsVal) : string :=
  match v with
  | JUndefined | JNull => ""
  | JBool b => if b then "true" else "false"
  | JNum x => number_to_string x
  | JStr s => s
  end.

(** ** [Number.parseInt(text, 10)] *)

Definition digit_of (c : ascii) : option Z :=
  let n := nat_of_ascii c in
  if ((48 <=? n) && (n <=? 57))%nat then Some (Z.of_nat n - 48) else None.

(** The longest prefix of decimal digits, read left to right; [acc] is the
    value read so far, [None] before the first digit. *)
Fixpoint parse_digits (s : string) (acc : option Z) : option Z :=
  match s with
  | EmptyString => acc
  | String c r =>
      match digit_of c with
      | Some d => parse_digits r (Some (10 * default 0 acc + d))
      | None => acc
      end
  end.

(** The Number nearest to the integer [n], which is not negative: [n]
    itself up to 2^53, beyond that the nearest multiple of the power of
    two that leaves 53 bits, the even one of two that are equally near;
    [None] from 2^1024 on, where the Number is [Infinity]. *)
Definition to_double (n : Z) : option Z :=
  if n <? 2 ^ 53 then Some n
  else
    let e := Z.log2 n - 52 in
    let q := Z.shiftr n e in
    let r := n - Z.shiftl q e in
    let half := Z.shiftl 1 (e - 1) in
    let q' := if (half <? r) || ((r =? half) && Z.odd q) then q + 1 else q in
    let v := Z.shiftl q' e in
    if v <? 2 ^ 1024 then Some v else None.

(** What [Number.parseInt] returns: an integral Number, given by its
    value, NaN or an infinity. *)
Inductive Parsed :=
| Integer (v : Z)
| NotANumber
| Infinite (negative : bool).

(** The digits after the sign. *)
Definition read_digits (negative : bool) (t : string) : Parsed :=
  match parse_digits t None with
  | None => NotANumber
  | Some n =>
      match to_double n with
      | Some v => Integer (if negative then - v else v)
      | None => Infinite negative
      end
  end.

(** [Number.parseInt(s, 10)]: white space is skipped, a sign is read,
    then the digits up to the first character that is none. *)
Definition parseInt (s : string) : Parsed :=
  match skip_white s with
  | String "-" r => read_digits true r
  | String "+" r => read_digits false r
  | t => read_digits false t
  end.

(** [Number.isInteger(parsed) && parsed > 0 ? parsed : fallback] *)
Definition normalizeCount (value : JsVal) (fallback : Z) : Z :=
  match parseInt (to_string_or_empty value) with
  | Integer parsed => if 0 <? parsed then parsed else fallback
  | NotANumber | Infinite _ => fallback
  end.

(** [DEFAULT_KEEP], from the environment variable [HISTORY_LIMIT]. *)
Definition DEFAULT_KEEP (HISTORY_LIMIT : option string) : Z :=
  match parseInt (default "" HISTORY_LIMIT) with
  | Integer n => Z.max 1 n
  | NotANumber | Infinite _ => 20
  end.

(** ** Data *)

Inductive Role := User | Assistant.

Record Entry := mkEntry { role : Role; content : string; ts : Z }.

(** A row of the table [messages], with the rowid SQLite gives it. *)
Record Row := mkRow {
  rowid : Z;
  user_id : string;
  guild_id : option string;
  channel_id : option string;
  r_role : Role;
  r_content : string;
  r_ts : Z
}.

(** The module's state: the backend chosen when it was loaded, the [Map]
    of the in-memory backend and the table of the SQLite backend. *)
Record State := mkState {
  useMemoryStore : bool;
  memoryStore : gmap string (list Entry);
  messages : list Row
}.

(** [value ?? null]: undefined and null are both the missing id. *)
Definition normalizeId (value : option string) : option string := value.

Definition getMemoryKey (userId : string) (guildId channelId : option string) : string :=
  userId ++ "|" ++ default "" guildId ++ "|" ++ default "" channelId.

(** ** The SQL statements

    Integers are the mathematical ones throughout: a count bound to
    [@keep] or [@limit] is used as it is, and rowids are not bounded.
    SQLite's own integers have 64 bits; what it does with a count of 2^63
    or more lies outside this model. *)

(** SQL's three truth values; [None] is NULL. *)
Definition sql_eq (a b : option string) : option bool :=
  match a, b with
  | Some x, Some y => Some (String.eqb x y)
  | _, _ => None
  end.

Definition sql_is_null (a : option string) : option bool :=
  Some (match a with None => true | Some _ => false end).

Definition sql_and (a b : option bool) : option bool :=
  match a, b with
  | Some false, _ | _, Some false => Some false
  | Some true, Some true => Some true
  | _, _ => None
  end.

Definition sql_or (a b : option bool) : option bool :=
  match a, b with
  | Some true, _ | _, Some true => Some true
  | Some false, Some false => Some false
  | _, _ => None
  end.

(** [(@p IS NULL AND col IS NULL) OR col = @p] *)
Definition nullable_match (p col : option string) : option bool :=
  sql_or (sql_and (sql_is_null p) (sql_is_null col)) (sql_eq col p).

(** The [WHERE] clause shared by the three statements that select by key;
    a row is selected when the clause is true. *)
Definition where_key (p_user : string) (p_guild p_channel : option string) (r : Row) : bool :=
  match sql_and (sql_eq (Some (user_id r)) (Some p_user))
          (sql_and (nullable_match p_guild (guild_id r))
                   (nullable_match p_channel (channel_id r))) with
  | Some true => true
  | _ => false
  end.

(** [a] comes before [b] under [ORDER BY ts DESC, rowid DESC]. *)
Definition before_desc (a b : Row) : bool :=
  (r_ts b <? r_ts a) || ((r_ts a =? r_ts b) && (rowid b <? rowid a)).

Fixpoint insert_desc (r : Row) (l : list Row) : list Row :=
  match l with
  | [] => [r]
  | x :: l' => if before_desc x r then x :: insert_desc r l' else r :: l
  end.

Definition order_desc (l : list Row) : list Row := foldr insert_desc [] l.

(** [SELECT ... WHERE key ORDER BY ts DESC, rowid DESC] *)
Definition select_key_desc (u : string) (g c : option string) (t : list Row) : list Row :=
  order_desc (filter (fun r => where_key u g c r = true) t).

(** The rowid of a row inserted without one: one more than the largest
    rowid in the table, 1 in an empty table. *)
Definition next_rowid (t : list Row) : Z :=
  1 + foldr (fun r m => Z.max (rowid r) m) 0 t.

Definition insertStmt (u : string) (g c : option string) (rl : Role) (ct : string) (now : Z)
    (t : list Row) : list Row :=
  t ++ [mkRow (next_rowid t) u g c rl ct now].

(** [DELETE ... WHERE rowid IN (SELECT rowid ... LIMIT -1 OFFSET @keep)] *)
Definition trimStmt (u : string) (g c : option string) (keep : Z) (t : list Row) : list Row :=
  let victims := rowid <$> drop (Z.to_nat keep) (select_key_desc u g c t) in
  filter (fun r => rowid r ∉ victims) t.

(** [SELECT role, content, ts ... LIMIT @limit] *)
Definition selectStmt (u : string) (g c : option string) (limit : Z) (t : list Row)
  : list Entry :=
  (fun r => mkEntry (r_role r) (r_content r) (r_ts r))
    <$> take (Z.to_nat limit) (select_key_desc u g c t).

Definition clearStmt (u : string) (g c : option string) (t : list Row) : list Row :=
  filter (fun r => where_key u g c r = false) t.

(** ** The in-memory backend *)

(** [while (messages.length > keep) messages.shift()] *)
Fixpoint shift_while (keep : Z) (msgs : list Entry) : list Entry :=
  match msgs with
  | [] => []
  | _ :: rest => if keep <? Z.of_nat (length msgs) then shift_while keep rest else msgs
  end.

(** [messages.slice(-n)] for a positive [n] *)
Definition slice_last (n : Z) (msgs : list Entry) : list Entry :=
  drop (length msgs - Z.to_nat n) msgs.

(** ** The exported functions *)

Section WithEnvironment.
Variable HISTORY_LIMIT : option string.

(** The arguments that name a conversation. *)
Record Key := mkKey {
  userId : string;
  guildId : option string;
  channelId : option string
}.

(** [keep = DEFAULT_KEEP] in a parameter list: the default replaces
    undefined only.  [DEFAULT_KEEP] is written as the Number whose digits
    are those of its value, which they are below 2^53. *)
Definition with_default (v : JsVal) : JsVal :=
  match v with
  | JUndefined => JNum (NInt (DEFAULT_KEEP HISTORY_LIMIT))
  | _ => v
  end.

Definition pushMessage (k : Key) (rl : Role) (ct : string) (keep : JsVal) (now : Z)
    (st : State) : State :=
  let normalizedKeep := normalizeCount (with_default keep) (DEFAULT_KEEP HISTORY_LIMIT) in
  let entry := mkEntry rl ct now in
  let normalizedGuildId := normalizeId (guildId k) in
  let normalizedChannelId := normalizeId (channelId k) in
  if negb (useMemoryStore st) then
    let t1 := insertStmt (userId k) normalizedGuildId normalizedChannelId rl ct (ts entry)
                (messages st) in
    let t2 := trimStmt (userId k) normalizedGuildId normalizedChannelId normalizedKeep t1 in
    mkState (useMemoryStore st) (memoryStore st) t2
  else
    let key := getMemoryKey (userId k) normalizedGuildId normalizedChannelId in
    let store1 :=
      match memoryStore st !! key with
      | Some _ => memoryStore st
      | None => <[key := []]> (memoryStore st)
      end in
    let msgs := default [] (store1 !! key) in
    let msgs' := shift_while normalizedKeep (msgs ++ [entry]) in
    mkState (useMemoryStore st) (<[key := msgs']> store1) (messages st).

Definition getLastMessages (k : Key) (limit : JsVal) (st : State) : list Entry :=
  let normalizedLimit := normalizeCount (with_default limit) (DEFAULT_KEEP HISTORY_LIMIT) in
  let normalizedGuildId := normalizeId (guildId k) in
  let normalizedChannelId := normalizeId (channelId k) in
  if negb (useMemoryStore st) then
    let rows := selectStmt (userId k) normalizedGuildId normalizedChannelId normalizedLimit
                  (messages st) in
    reverse rows
  else
    let key := getMemoryKey (userId k) normalizedGuildId normalizedChannelId in
    let msgs := default [] (memoryStore st !! key) in
    slice_last normalizedLimit msgs.

Definition clearHistory (k : Key) (st : State) : State :=
  let normalizedGuildId := normalizeId (guildId k) in
  let normalizedChannelId := normalizeId (channelId k) in
  if negb (useMemoryStore st) then
    mkState (useMemoryStore st) (memoryStore st)
      (clearStmt (userId k) normalizedGuildId normalizedChannelId (messages st))
  else
    let key := getMemoryKey (userId k) normalizedGuildId normalizedChannelId in
    mkState (useMemoryStore st) (delete key (memoryStore st)) (messages st).

End WithEnvironment.
End Store.

(** * Facts about strings *)

Module StringFacts.
Import Js.

Lemma append_nil (s : string) : "" ++ s = s.
Proof. reflexivity. Qed.

Lemma append_cons (c : ascii) (a b : string) : String c a ++ b = String c (a ++ b).
Proof. reflexivity. Qed.

Lemma append_assoc (a b c : string) : (a ++ b) ++ c = a ++ (b ++ c).
Proof.
  induction a as [|x a IH]; [done|]. by rewrite !append_cons, IH.
Qed.

Lemma prefix_app (p s : string) :
  String.prefix p s = true <-> exists rest, s = p ++ rest.
Proof.
  revert s. induction p as [|a p IH]; intros s.
  - split; [intros _; by exists s | by destruct s].
  - destruct s as [|b s]; [split; [done | intros [rest Hrest]; discriminate]|].
    cbn [String.prefix]. destruct (Ascii.ascii_dec a b) as [->|Hne].
    + rewrite IH. split; intros [rest Hrest]; exists rest.
      * rewrite append_cons. congruence.
      * rewrite append_cons in Hrest. congruence.
    + split; [done | intros [rest Hrest]; rewrite append_cons in Hrest; congruence].
Qed.

Lemma startsWith_spec (s p : string) :
  startsWith s p = true <-> exists rest, s = p ++ rest.
Proof. apply prefix_app. Qed.

Lemma truthy_spec (s : string) : truthy s = true <-> s <> "".
Proof. destruct s; simpl; split; congruence. Qed.

Lemma or_else_empty (s : string) : or_else s "" = s.
Proof. by destruct s. Qed.

Lemma all_chars_dot (pre suf : string) :
  all_chars ext_char (pre ++ String "." suf) = false.
Proof.
  induction pre as [|c pre IH]; [done|].
  rewrite append_cons. cbn [all_chars]. rewrite IH. apply andb_false_r.
Qed.

Lemma ext_chars_no_dot (s : string) : all_chars ext_char s = true -> has_dot s = false.
Proof.
  induction s as [|c s IH]; simpl; [done|].
  intros [Hc Hs]%andb_true_iff. rewrite (IH Hs).
  unfold ext_char in Hc. destruct (is_dot c); [done | done].
Qed.

Lemma has_dot_app (pre suf : string) : has_dot (pre ++ String "." suf) = true.
Proof.
  induction pre as [|c pre IH]; [done|].
  rewrite append_cons. cbn [has_dot]. rewrite IH. apply orb_true_r.
Qed.

(** The regular expression picks the text from the last dot on, when that
    text goes to the end of the name without slash or backslash. *)
Lemma regex_ext_spec (name e : string) :
  regex_ext name = Some e <->
  exists pre suf, name = pre ++ "." ++ suf /\ e = "." ++ suf
                  /\ suf <> "" /\ all_chars ext_char suf = true.
Proof.
  split.
  - revert e. induction name as [|c r IH]; intros e; simpl; [done|].
    destruct (is_dot c && truthy r && all_chars ext_char r) eqn:Hc.
    + intros [= <-].
      apply andb_true_iff in Hc as [[Hd Ht]%andb_true_iff Ha].
      unfold is_dot in Hd. apply Ascii.eqb_eq in Hd as ->.
      exists "", r. repeat split; [by apply truthy_spec | done].
    + intros (pre & suf & -> & -> & Hne & Ha)%IH.
      exists (String c pre), suf. repeat split; done.
  - intros (pre & suf & -> & -> & Hne & Ha).
    induction pre as [|c pre IH].
    + apply truthy_spec in Hne. change ("" ++ "." ++ suf) with (String "." suf).
      cbn [regex_ext]. by rewrite Hne, Ha.
    + rewrite append_cons. cbn [regex_ext].
      replace (all_chars ext_char (pre ++ "." ++ suf)) with false
        by (symmetry; apply all_chars_dot).
      rewrite andb_false_r. exact IH.
Qed.

Lemma split_dot_pop_app (pre suf : string) :
  has_dot suf = false -> split_dot_pop (pre ++ "." ++ suf) = suf.
Proof.
  intros Hs. induction pre as [|c pre IH].
  - change ("" ++ "." ++ suf) with (String "." suf).
    cbn [split_dot_pop]. by rewrite Hs.
  - rewrite append_cons. cbn [split_dot_pop].
    replace (has_dot (pre ++ "." ++ suf)) with true
      by (symmetry; apply has_dot_app).
    exact IH.
Qed.

End StringFacts.

(** * The classifier *)

Module ClassifierFacts.
Import Js Node Attachments StringFacts.

Lemma IMAGE_EXTS_spec (x : string) :
  x ∈ IMAGE_EXTS <->
  x ∈ [".png"; ".jpg"; ".jpeg"; ".webp"; ".gif"; ".bmp"; ".tiff"; ".tif"; ".heic"].
Proof. unfold IMAGE_EXTS. apply elem_of_list_to_set. Qed.

Lemma has_spec (s : gset string) (x : string) : has s x = true <-> x ∈ s.
Proof. unfold has. apply bool_decide_eq_true. Qed.

Lemma empty_not_image_ext : "" ∉ IMAGE_EXTS.
Proof.
  rewrite IMAGE_EXTS_spec. intros H.
  repeat (apply elem_of_cons in H as [H|H]; [discriminate|]).
  by apply elem_of_nil in H.
Qed.

(** What the spec calls the file extension of a name being a recognised
    image extension. *)
Definition image_extension (name : string) : Prop :=
  exists pre suf, name = pre ++ "." ++ suf /\ suf <> ""
                  /\ all_chars ext_char suf = true
                  /\ toLowerCase ("." ++ suf) ∈ IMAGE_EXTS.

Lemma classify_ext_image (name : string) :
  has IMAGE_EXTS (classify_ext name) = true <-> image_extension name.
Proof.
  rewrite has_spec. unfold classify_ext, image_extension. split.
  - destruct (regex_ext name) as [e|] eqn:He.
    + apply regex_ext_spec in He as (pre & suf & -> & -> & Hne & Ha).
      simpl. intros H. exists pre, suf. done.
    + intros H. by apply empty_not_image_ext in H.
  - intros (pre & suf & Hn & Hne & Ha & Hin).
    assert (regex_ext name = Some ("." ++ suf)) as ->.
    { apply regex_ext_spec. by exists pre, suf. }
    done.
Qed.

Lemma table_values_truthy (k v : string) :
  MIME_BY_EXTENSION !! k = Some v -> truthy v = true.
Proof.
  unfold MIME_BY_EXTENSION. intros H%elem_of_list_to_map_2.
  repeat (apply elem_of_cons in H as [H|H]; [by injection H as -> -> |]).
  by apply elem_of_nil in H.
Qed.

Lemma lookup_or_default (k fallback : string) :
  lookup_or MIME_BY_EXTENSION k fallback = default fallback (MIME_BY_EXTENSION !! k).
Proof.
  unfold lookup_or, or_else.
  destruct (MIME_BY_EXTENSION !! k) as [v|] eqn:Hk; simpl; [|done].
  by rewrite (table_values_truthy _ _ Hk).
Qed.

(** For a name with an image extension, the [switch] of [extToMime] and the
    table agree. *)
Lemma extToMime_table (name : string) :
  has IMAGE_EXTS (classify_ext name) = true ->
  extToMime name = default "" (MIME_BY_EXTENSION !! classify_ext name).
Proof.
  intros (pre & suf & -> & Hne & Ha & Hin)%classify_ext_image.
  unfold classify_ext, extToMime.
  assert (regex_ext (pre ++ "." ++ suf) = Some ("." ++ suf)) as ->.
  { apply regex_ext_spec. by exists pre, suf. }
  rewrite split_dot_pop_app by by apply ext_chars_no_dot.
  rewrite or_else_empty. simpl truthy. cbv iota.
  change (toLowerCase ("." ++ suf)) with (String "." (toLowerCase suf)) in *.
  apply IMAGE_EXTS_spec in Hin.
  repeat (apply elem_of_cons in Hin as [Hin|Hin];
          [injection Hin as ->; vm_compute; reflexivity|]).
  by apply elem_of_nil in Hin.
Qed.

(** The resolution the classifier implements: a declared type first, then
    the table entry of an image extension, then the guess from the
    dimensions, then the table entry of any other extension, then the
    generic type. *)
Definition resolved_mimeType (a : DiscordAttachment) : string :=
  let declared := stringOrEmpty (att_contentType a) in
  let ext := classify_ext (opt_str (att_name a)) in
  if truthy declared then declared
  else if has IMAGE_EXTS ext then default "" (MIME_BY_EXTENSION !! ext)
  else if Number_isFinite (att_width a) && Number_isFinite (att_height a) then "image/png"
  else default "application/octet-stream" (MIME_BY_EXTENSION !! ext).

(** The resolution as the claim words it: the extension table comes before
    the guess from the dimensions. *)
Definition claimed_mimeType (a : DiscordAttachment) : string :=
  let declared := stringOrEmpty (att_contentType a) in
  let ext := classify_ext (opt_str (att_name a)) in
  if truthy declared then declared
  else match MIME_BY_EXTENSION !! ext with
       | Some m => m
       | None =>
           if Number_isFinite (att_width a) && Number_isFinite (att_height a)
           then "image/png" else "application/octet-stream"
       end.

(** A PDF for which Discord reports dimensions and no content type. *)
Definition pdf_with_dimensions : DiscordAttachment :=
  mkAttachment (Some "doc.pdf") JNull (JNum (NInt 1024))
    (JNum (NInt 10)) (JNum (NInt 20)) (Some "https://cdn.example/doc.pdf") None.

(** C6: [isImage] is true exactly when the declared type starts with
    [image/], or the name has a recognised image extension, or width and
    height are both finite Numbers; in particular a declared [image/] type
    alone is enough, whatever the name, and that much also holds of
    [isImageAttachment] as [bots/Fuku/utils/attachments.js] calls it. *)
Theorem classify_isImage_iff (a : DiscordAttachment) :
  (isImage (classifyDiscordAttachment a) = true <->
     (exists rest, att_contentType a = JStr ("image/" ++ rest))
     \/ image_extension (opt_str (att_name a))
     \/ (Number_isFinite (att_width a) = true /\ Number_isFinite (att_height a) = true))
  /\ (forall rest, att_contentType a = JStr ("image/" ++ rest) ->
        isImage (classifyDiscordAttachment a) = true)
  /\ (forall env name rest,
        Fuku.isImageAttachment env name (Fuku.normalizeMimeType env name ("image/" ++ rest))
        = true).
Proof.
  assert (Hmime : startsWith (stringOrEmpty (att_contentType a)) "image/" = true <->
                  exists rest, att_contentType a = JStr ("image/" ++ rest)).
  { rewrite startsWith_spec. split.
    - intros [rest Hrest]. exists rest.
      destruct (att_contentType a); simpl in Hrest; try discriminate. by subst.
    - intros [rest ->]. by exists rest. }
  assert (Hiff : isImage (classifyDiscordAttachment a) = true <->
     (exists rest, att_contentType a = JStr ("image/" ++ rest))
     \/ image_extension (opt_str (att_name a))
     \/ (Number_isFinite (att_width a) = true /\ Number_isFinite (att_height a) = true)).
  { unfold classifyDiscordAttachment; simpl isImage.
    rewrite !orb_true_iff, andb_true_iff, Hmime, classify_ext_image. tauto. }
  split; [exact Hiff|]. split.
  - intros rest Hrest. apply Hiff. left. by exists rest.
  - intros env name rest. unfold Fuku.normalizeMimeType.
    change ("image/" ++ rest) with (String "i" ("mage/" ++ rest)). cbn [truthy].
    unfold Fuku.isImageAttachment. destruct (has Fuku.IMAGE_EXTS _); [done|].
    assert (startsWith (String "i" ("mage/" ++ rest)) "image/" = true) as ->; [|done].
    apply startsWith_spec. by exists rest.
Qed.

(** C7, as the code has it: the declared type when it is a non-empty
    string; otherwise the table entry of a recognised image extension;
    otherwise [image/png] when width and height are finite; otherwise the
    table entry of the extension; otherwise [application/octet-stream]. *)
Theorem classify_mimeType_precedence (a : DiscordAttachment) :
  c_mimeType (classifyDiscordAttachment a) = resolved_mimeType a.
Proof.
  unfold classifyDiscordAttachment, resolved_mimeType; simpl c_mimeType.
  unfold or_else at 1.
  destruct (truthy (stringOrEmpty (att_contentType a))); [done|].
  destruct (has IMAGE_EXTS (classify_ext (opt_str (att_name a)))) eqn:Hext.
  - by apply extToMime_table.
  - destruct (Number_isFinite (att_width a) && Number_isFinite (att_height a)); [done|].
    apply lookup_or_default.
Qed.

(** C7, the claim as worded fails: the PDF with dimensions resolves to
    [image/png], not to the table's [application/pdf]. *)
Lemma classify_mimeType_pdf_with_dimensions :
  c_mimeType (classifyDiscordAttachment pdf_with_dimensions) = "image/png"
  /\ claimed_mimeType pdf_with_dimensions = "application/pdf"
  /\ c_mimeType (classifyDiscordAttachment pdf_with_dimensions)
     <> claimed_mimeType pdf_with_dimensions.
Proof. vm_compute. repeat split; discriminate. Qed.

End ClassifierFacts.

(** * The fetcher *)

Module FetchFacts.
Import Js Node Attachments.

Definition after (w : World) (ticks : nat) (events : list Event) : World :=
  mkWorld (ticks + tick w) (trace w ++ events) (fsys w).

(** C4: [fetchAsBuffer] asks at most three times; the first answer ends
    the call with its bytes; after the first failure it waits 500 ms, after
    the second 1000 ms, and after the third it throws that third error as
    it is, without waiting.  The module under [bots/Fuku] runs this same
    function. *)
Theorem fetchAsBuffer_three_attempts (env : Env) (u : string) (w : World) :
  Fuku.fetchAsBuffer env = fetchAsBuffer env /\
  fetchAsBuffer env (Some u) w =
    match axios_get env (tick w) u with
    | inr b => (Returned b, after w 1 [EGet u])
    | inl _ =>
        match axios_get env (S (tick w)) u with
        | inr b => (Returned b, after w 2 [EGet u; EWait 500; EGet u])
        | inl _ =>
            match axios_get env (S (S (tick w))) u with
            | inr b =>
                (Returned b, after w 3 [EGet u; EWait 500; EGet u; EWait 1000; EGet u])
            | inl e =>
                (Threw e, after w 3 [EGet u; EWait 500; EGet u; EWait 1000; EGet u])
            end
        end
    end.
Proof.
  split; [reflexivity|].
  unfold fetchAsBuffer, after.
  change (seqZ 1 RETRY_ATTEMPTS) with [1; 2; 3]. cbn.
  unfold try_catch, bind, http_get, bind, next_tick, emit, wait, emit, ret, throw; cbn.
  destruct (axios_get env (tick w) u) as [e1|b1]; cbn; [|reflexivity].
  destruct (axios_get env (S (tick w)) u) as [e2|b2]; cbn;
    [|by rewrite <- !app_assoc].
  destruct (axios_get env (S (S (tick w))) u) as [e3|b3]; cbn;
    by rewrite <- !app_assoc.
Qed.

End FetchFacts.

(** * The upload client *)

Module UploadFacts.
Import Js Node Attachments.

(** What the [finally] block logs for a deletion that was refused. *)
Definition cleanup_warning (what : string) (fault : option JsError) : list Event :=
  match fault with
  | Some e =>
      if bool_decide (code e <> Some "ENOENT") then [EWarn (what ++ message e)] else []
  | None => []
  end.

(** The request of the [try] block does not touch the file system. *)
Lemma upload_request_fsys env handle filePath fileName mimeType name w o w' :
  upload_request env handle filePath fileName mimeType name w = (o, w') ->
  fsys w' = fsys w /\ tick w' = S (tick w).
Proof.
  unfold upload_request, bind, manager_uploadFile, bind, next_tick, emit, ret, throw; cbn.
  destruct (upload_api env (tick w) filePath _ _) as [e|r]; cbn.
  - by intros [= <- <-].
  - destruct (negb _); by intros [= <- <-].
Qed.

Lemma writeFile_creates env path buffer w w' :
  fs_writeFile env path buffer w = (Returned tt, w') ->
  fsys w' !! path = Some KFile /\ is_directory env (fsys w) path = false.
Proof.
  unfold fs_writeFile, bind, next_tick, emit, get_fsys, set_fsys, ret, throw; cbn.
  destruct (fs_fault env (tick w)); cbn; [done|].
  destruct (is_directory env (fsys w) path); cbn; [done|].
  intros [= <-]; cbn. split; [apply lookup_insert_eq | done].
Qed.

Lemma mkdtemp_creates env prefix w dir w' :
  fs_mkdtemp env prefix w = (Returned dir, w') ->
  fsys w' !! dir = Some KDir /\ exists suffix, dir = prefix ++ suffix.
Proof.
  unfold fs_mkdtemp, bind, next_tick, emit, get_fsys, set_fsys, ret, throw; cbn.
  destruct (fs_fault env (tick w)); cbn; [done|].
  destruct (fsys w !! (prefix ++ random_suffix env (tick w))); cbn; [done|].
  intros [= <- <-]; cbn. split; [apply lookup_insert_eq | by eexists].
Qed.

Lemma generateTempFilePath_fsys env name w fileName w' :
  generateTempFilePath env name w = (Returned fileName, w') -> fsys w' = fsys w.
Proof.
  unfold generateTempFilePath, bind, crypto_randomHex, bind, next_tick, ret.
  destruct (truthy name); cbn; by intros [= <- <-].
Qed.

Lemma has_slash_app (a b : string) : has_slash (a ++ String "/" b) = true.
Proof.
  induction a as [|c a IH]; [done|].
  rewrite StringFacts.append_cons. cbn [has_slash]. rewrite IH. apply orb_true_r.
Qed.

Lemma has_slash_app_r (a b : string) : has_slash a = true -> has_slash (a ++ b) = true.
Proof.
  induction a as [|c a IH]; [done|].
  rewrite StringFacts.append_cons. cbn [has_slash].
  intros [->|H]%orb_true_iff; [done|]. rewrite IH by done. apply orb_true_r.
Qed.

(** A path with a slash lies beneath its [dirname]. *)
Lemma dirname_prefix (s : string) :
  has_slash s = true -> String.prefix (dirname s ++ "/") s = true /\ dirname s <> s.
Proof.
  induction s as [|c s IH]; [done|].
  cbn [has_slash dirname]. destruct (has_slash s) eqn:Hs.
  - intros _. destruct (IH eq_refl) as [Hp Hne].
    rewrite StringFacts.append_cons. cbn [String.prefix].
    destruct (Ascii.ascii_dec c c); [|done]. split; [done | congruence].
  - rewrite orb_false_r. intros ->%Ascii.eqb_eq. split; [|done].
    rewrite StringFacts.append_nil. cbn [String.prefix].
    destruct (Ascii.ascii_dec "/" "/"); [|done]. by destruct s.
Qed.

(** Where the file of an upload lies: a write that went through went to
    a path beneath the temporary directory. *)
Lemma written_beneath env (prefix tmpDir fileName : string) (fs : gmap string Kind) :
  has_slash prefix = true ->
  (exists suffix, tmpDir = prefix ++ suffix) ->
  fs !! tmpDir = Some KDir ->
  is_directory env fs (path_join tmpDir fileName) = false ->
  under tmpDir (path_join tmpDir fileName) = true.
Proof.
  intros Hslash [suffix ->] Hdir. unfold path_join, under.
  destruct (String.eqb fileName ".") eqn:Hdot.
  - by rewrite String.eqb_refl.
  - destruct (String.eqb fileName "..") eqn:Hdots.
    + intros Hnot. exfalso.
      destruct (dirname_prefix (prefix ++ suffix) (has_slash_app_r _ _ Hslash))
        as [Hp _].
      unfold is_directory in Hnot.
      apply orb_false_iff in Hnot as [_ Hnot].
      apply bool_decide_eq_false in Hnot. apply Hnot.
      by exists (prefix ++ suffix), KDir.
    + intros _. apply orb_true_iff. right.
      apply StringFacts.prefix_app. exists fileName.
      symmetry. apply StringFacts.append_assoc.
Qed.

Lemma tmpdir_prefix_has_slash env :
  has_slash (path_join (os_tmpdir env) "gemini-upload-") = true.
Proof. unfold path_join. cbn [String.eqb]. apply has_slash_app. Qed.

(** The [finally] block never throws; it asks for both deletions, logs
    nothing but its warnings, and leaves neither path behind unless the
    removal of the directory was refused. *)
Lemma upload_cleanup_runs env filePath tmpDir w :
  fsys w !! filePath = Some KFile ->
  under tmpDir filePath = true ->
  exists w',
    upload_cleanup env filePath tmpDir w = (Returned tt, w')
    /\ trace w' =
         (trace w ++ [EUnlink filePath]
            ++ cleanup_warning "[ATTACHMENTS] Failed to remove temp file: "
                 (fs_fault env (tick w))
            ++ [ERm tmpDir]
            ++ cleanup_warning "[ATTACHMENTS] Failed to remove temp directory: "
                 (fs_fault env (S (tick w))))%list
    /\ (fs_fault env (S (tick w)) = None ->
        fsys w' !! filePath = None /\ fsys w' !! tmpDir = None).
Proof.
  intros Hfile Hunder.
  unfold upload_cleanup, bind, try_catch, fs_unlink, fs_rm, bind, next_tick, emit,
    get_fsys, set_fsys, console_warn, emit, ret, throw, cleanup_warning; cbn.
  destruct (fs_fault env (tick w)) as [e1|] eqn:F1; cbn;
    [destruct (bool_decide (code e1 <> Some "ENOENT")); cbn|rewrite Hfile; cbn];
    (destruct (fs_fault env (S (tick w))) as [e2|] eqn:F2; cbn;
     [destruct (bool_decide (code e2 <> Some "ENOENT")); cbn|]);
    eexists; (split; [reflexivity|]); cbn;
    (split; [by rewrite <- ?app_assoc|]); try done;
    intros _; (split;
      [ apply map_lookup_filter_None; right; intros k _; cbn; by rewrite Hunder
      | apply map_lookup_filter_None; right; intros k _; cbn;
        unfold under; by rewrite String.eqb_refl ]).
Qed.

(** C9, as the code has it: once the temporary directory and the file in
    it exist, the call ends as its [try] block ends, be it with the file
    reference, with the API's error or with the error about the missing
    handle; on each of these paths both deletions are asked for; a refused
    deletion changes nothing in the outcome and is logged unless its code
    is ENOENT; and unless the removal of the directory is refused, neither
    the file nor the directory is left.  This holds for both modules, which
    differ in [handle] only. *)
Theorem upload_removes_temp_files
    (env : Env) (handle : option UploadedFile -> string) (buffer : Buffer)
    (mimeType name apiKey tmpDir fileName : string) (w w1 w2 w3 : World) :
  truthy apiKey = true ->
  fs_mkdtemp env (path_join (os_tmpdir env) "gemini-upload-") w = (Returned tmpDir, w1) ->
  generateTempFilePath env name w1 = (Returned fileName, w2) ->
  fs_writeFile env (path_join tmpDir fileName) buffer w2 = (Returned tt, w3) ->
  exists o w4 w5,
    upload_request env handle (path_join tmpDir fileName) fileName mimeType name w3 = (o, w4)
    /\ upload_with env handle buffer mimeType name apiKey w = (o, w5)
    /\ trace w5 =
         (trace w4 ++ [EUnlink (path_join tmpDir fileName)]
            ++ cleanup_warning "[ATTACHMENTS] Failed to remove temp file: "
                 (fs_fault env (tick w4))
            ++ [ERm tmpDir]
            ++ cleanup_warning "[ATTACHMENTS] Failed to remove temp directory: "
                 (fs_fault env (S (tick w4))))%list
    /\ (fs_fault env (S (tick w4)) = None ->
        fsys w5 !! path_join tmpDir fileName = None /\ fsys w5 !! tmpDir = None).
Proof.
  intros Hkey Hdir Hname Hwrite.
  destruct (upload_request env handle (path_join tmpDir fileName) fileName mimeType name w3)
    as [o w4] eqn:Hreq.
  pose proof (upload_request_fsys _ _ _ _ _ _ _ _ _ Hreq) as [Hfs _].
  pose proof (writeFile_creates _ _ _ _ _ Hwrite) as [Hfile Hnodir].
  pose proof (mkdtemp_creates _ _ _ _ _ Hdir) as [Hmade Hpre].
  pose proof (generateTempFilePath_fsys _ _ _ _ _ Hname) as Hsame.
  rewrite <- Hsame in Hmade.
  pose proof (written_beneath env _ tmpDir fileName (fsys w2)
                (tmpdir_prefix_has_slash env) Hpre Hmade Hnodir) as Hunder.
  rewrite <- Hfs in Hfile.
  destruct (upload_cleanup_runs env _ tmpDir w4 Hfile Hunder)
    as (w5 & Hclean & Htrace & Hgone).
  exists o, w4, w5. split; [reflexivity|]. split; [|by split].
  unfold upload_with. rewrite Hkey. cbn [negb].
  unfold bind at 1. rewrite Hdir.
  unfold bind at 1. rewrite Hname.
  unfold bind at 1. rewrite Hwrite.
  unfold try_finally. rewrite Hreq, Hclean. reflexivity.
Qed.

(** A write that fails does so before the [try] statement: the call ends
    with that error in the world the write left, the directory still in
    it. *)
Lemma upload_write_failure_leaves_directory
    (env : Env) (handle : option UploadedFile -> string) (buffer : Buffer)
    (mimeType name apiKey tmpDir fileName : string) (w w1 w2 w3 : World) (e : JsError) :
  truthy apiKey = true ->
  fs_mkdtemp env (path_join (os_tmpdir env) "gemini-upload-") w = (Returned tmpDir, w1) ->
  generateTempFilePath env name w1 = (Returned fileName, w2) ->
  fs_writeFile env (path_join tmpDir fileName) buffer w2 = (Threw e, w3) ->
  upload_with env handle buffer mimeType name apiKey w = (Threw e, w3)
  /\ fsys w3 !! tmpDir = Some KDir.
Proof.
  intros Hkey Hdir Hname Hwrite. split.
  - unfold upload_with. rewrite Hkey. cbn [negb].
    unfold bind at 1. rewrite Hdir.
    unfold bind at 1. rewrite Hname.
    unfold bind at 1. by rewrite Hwrite.
  - pose proof (mkdtemp_creates _ _ _ _ _ Hdir) as [Hmade _].
    pose proof (generateTempFilePath_fsys _ _ _ _ _ Hname) as Hsame.
    rewrite <- Hsame in Hmade. revert Hwrite.
    unfold fs_writeFile, bind, next_tick, emit, get_fsys, set_fsys, ret, throw; cbn.
    destruct (fs_fault env (tick w2)); cbn; [by intros [= _ <-]|].
    destruct (is_directory env (fsys w2) (path_join tmpDir fileName)); cbn;
      [by intros [= _ <-] | done].
Qed.

End UploadFacts.

(** * The part builder *)

Module BuilderFacts.
Import Js Node.

(** A piece of builder code that only ever adds to the end of [parts], the
    same parts whatever the array held before. *)
Definition appends {A} (m : M Build A) : Prop :=
  forall w, exists o delta w',
    forall ps, m (mkBuild ps w) = (o, mkBuild (ps ++ delta) w').

(** Such a piece that, moreover, never throws. *)
Definition appends_ok (m : M Build unit) : Prop :=
  forall w, exists delta w',
    forall ps, m (mkBuild ps w) = (Returned tt, mkBuild (ps ++ delta) w').

Lemma appends_ok_appends m : appends_ok m -> appends m.
Proof. intros H w. destruct (H w) as (d & w' & Hm). by exists (Returned tt), d, w'. Qed.

Lemma appends_io {A} (m : M World A) : appends (io m).
Proof.
  intros w. destruct (m w) as [o w'] eqn:Hm.
  exists o, [], w'. intros ps. unfold io. cbn. by rewrite Hm, app_nil_r.
Qed.

Lemma appends_ok_io (m : M World unit) :
  (forall w, exists w', m w = (Returned tt, w')) -> appends_ok (io m).
Proof.
  intros H w. destruct (H w) as [w' Hm].
  exists [], w'. intros ps. unfold io. cbn. by rewrite Hm, app_nil_r.
Qed.

Lemma appends_ok_warn msg : appends_ok (io (console_warn msg)).
Proof. apply appends_ok_io. intros w. by eexists. Qed.

Lemma appends_ok_push p : appends_ok (parts_push p).
Proof. intros w. by exists [p], w. Qed.

Lemma appends_ok_ret : appends_ok (ret tt).
Proof. intros w. exists [], w. intros ps. unfold ret. by rewrite app_nil_r. Qed.

Lemma appends_bind {A B} (m : M Build A) (k : A -> M Build B) :
  appends m -> (forall a, appends (k a)) -> appends (bind m k).
Proof.
  intros Hm Hk w. destruct (Hm w) as (o & d & w1 & H1).
  destruct o as [a|e].
  - destruct (Hk a w1) as (o2 & d2 & w2 & H2).
    exists o2, (d ++ d2)%list, w2. intros ps.
    unfold bind. by rewrite H1, H2, app_assoc.
  - exists (Threw e), d, w1. intros ps. unfold bind. by rewrite H1.
Qed.

Lemma appends_ok_bind (m : M Build unit) (k : unit -> M Build unit) :
  appends_ok m -> (forall a, appends_ok (k a)) -> appends_ok (bind m k).
Proof.
  intros Hm Hk w. destruct (Hm w) as (d & w1 & H1).
  destruct (Hk tt w1) as (d2 & w2 & H2).
  exists (d ++ d2)%list, w2. intros ps.
  unfold bind. by rewrite H1, H2, app_assoc.
Qed.

(** A [try] whose block only adds parts and whose handler adds parts and
    returns: the statement as a whole adds parts and returns. *)
Lemma appends_ok_try_catch (body : M Build unit) (handler : JsError -> M Build unit) :
  appends body -> (forall e, appends_ok (handler e)) ->
  appends_ok (try_catch body handler).
Proof.
  intros Hb Hh w. destruct (Hb w) as (o & d & w1 & H1).
  destruct o as [[]|e].
  - exists d, w1. intros ps. unfold try_catch. by rewrite H1.
  - destruct (Hh e w1) as (d2 & w2 & H2).
    exists (d ++ d2)%list, w2. intros ps.
    unfold try_catch. by rewrite H1, H2, app_assoc.
Qed.

(** What one run of a loop body adds, and the world it leaves. *)
Definition contribution (step : M Build unit) (w : World) : list Part * World :=
  match step (mkBuild [] w) with
  | (_, s) => (parts s, world s)
  end.

(** What a whole loop adds: the contributions of its items, one after the
    other, each run in the world the previous one left. *)
Fixpoint contributions {A} (step : A -> M Build unit) (items : list A) (w : World)
  : list Part * World :=
  match items with
  | [] => ([], w)
  | x :: rest =>
      match contribution (step x) w with
      | (d, w1) =>
          match contributions step rest w1 with
          | (ds, w2) => ((d ++ ds)%list, w2)
          end
      end
  end.

Lemma appends_ok_contribution (m : M Build unit) (w : World) (ps : list Part) :
  appends_ok m ->
  m (mkBuild ps w)
  = (Returned tt, mkBuild (ps ++ (contribution m w).1) (contribution m w).2).
Proof.
  intros H. destruct (H w) as (d & w' & Hm).
  unfold contribution. rewrite (Hm []), (Hm ps). reflexivity.
Qed.

Lemma for_of_contributions {A} (step : A -> M Build unit) (items : list A)
    (w : World) (ps : list Part) :
  (forall x, appends_ok (step x)) ->
  for_of items step (mkBuild ps w)
  = (Returned tt,
     mkBuild (ps ++ (contributions step items w).1) (contributions step items w).2).
Proof.
  intros Hstep. revert w ps. induction items as [|x rest IH]; intros w ps.
  - cbn. unfold ret. by rewrite app_nil_r.
  - cbn [for_of contributions]. unfold bind.
    rewrite (appends_ok_contribution _ _ _ (Hstep x)).
    destruct (contribution (step x) w) as [d w1]. cbn [fst snd].
    rewrite IH. destruct (contributions step rest w1) as [ds w2]. cbn [fst snd].
    by rewrite app_assoc.
Qed.

(** The world after [console.warn(msg)]. *)
Definition logged (msg : string) (w : World) : World :=
  mkWorld (tick w) (trace w ++ [EWarn msg]) (fsys w).

(** The notices of the two [catch] blocks. *)
Definition image_notice (image : Item) : Part :=
  TextPart ("Attached image could not be processed ("
            ++ or_else (name image) "image attachment" ++ ").").

Definition file_notice (file : Item) : Part :=
  TextPart ("Attached file received but preview unavailable: "
            ++ or_else (name file) "file attachment"
            ++ " (" ++ or_else (mimeType file) "unknown type" ++ ").").

Lemma image_catch_ok image e : appends_ok (Attachments.image_catch image e).
Proof.
  unfold Attachments.image_catch.
  apply appends_ok_bind; [apply appends_ok_warn | intros _; apply appends_ok_push].
Qed.

Lemma file_catch_ok file e : appends_ok (Attachments.file_catch file e).
Proof.
  unfold Attachments.file_catch.
  apply appends_ok_bind; [apply appends_ok_warn | intros _; apply appends_ok_push].
Qed.

Ltac appends_tac :=
  repeat first
    [ apply appends_io
    | apply appends_ok_appends, appends_ok_push
    | apply appends_ok_appends, appends_ok_warn
    | apply appends_ok_appends, appends_ok_ret
    | apply appends_bind; [|intros ?]
    | match goal with
      | |- appends (match ?x with _ => _ end) => destruct x
      end ].

Lemma image_try_appends env apiKey maxInlineSize image :
  appends (Attachments.image_try env apiKey maxInlineSize image).
Proof. unfold Attachments.image_try. appends_tac. Qed.

Lemma file_try_appends env apiKey file :
  appends (Attachments.file_try env apiKey file).
Proof. unfold Attachments.file_try. appends_tac. Qed.

Lemma fuku_image_try_appends env apiKey image :
  appends (Fuku.image_try env apiKey image).
Proof. unfold Fuku.image_try. appends_tac. Qed.

Lemma fuku_file_try_appends env apiKey file :
  appends (Fuku.file_try env apiKey file).
Proof. unfold Fuku.file_try. appends_tac. Qed.

Lemma image_step_ok env apiKey maxInlineSize image :
  appends_ok (Attachments.image_step env apiKey maxInlineSize image).
Proof.
  unfold Attachments.image_step. destruct (negb _); [apply appends_ok_ret|].
  apply appends_ok_try_catch; [apply image_try_appends | apply image_catch_ok].
Qed.

Lemma file_step_ok env apiKey file :
  appends_ok (Attachments.file_step env apiKey file).
Proof.
  unfold Attachments.file_step. destruct (negb _); [apply appends_ok_ret|].
  apply appends_ok_try_catch; [apply file_try_appends | apply file_catch_ok].
Qed.

Lemma fuku_image_step_ok env apiKey image :
  appends_ok (Fuku.image_step env apiKey image).
Proof.
  apply appends_ok_try_catch; [apply fuku_image_try_appends | apply image_catch_ok].
Qed.

Lemma fuku_file_step_ok env apiKey file :
  appends_ok (Fuku.file_step env apiKey file).
Proof.
  apply appends_ok_try_catch; [apply fuku_file_try_appends | apply file_catch_ok].
Qed.

(** A [try] block that throws leaves what it had pushed, and the handler
    adds its notice after it. *)
Lemma try_catch_threw (body : M Build unit) (handler : JsError -> M Build unit)
    (w : World) (e : JsError) (s s' : Build) :
  body (mkBuild [] w) = (Threw e, s) ->
  handler e s = (Returned tt, s') ->
  contribution (try_catch body handler) w = (parts s', world s').
Proof.
  intros Hb Hh. unfold contribution, try_catch. by rewrite Hb, Hh.
Qed.

(** The opening of the list in the module with the classifier, and the
    images and files after it. *)
Definition warn_no_key (apiKey : string) (w : World) : World :=
  if negb (truthy apiKey)
  then logged "[ATTACHMENTS] No Gemini apiKey: uploads will be skipped." w
  else w.

Definition image_parts env (input : Attachments.BuildInput) (w : World) :=
  contributions
    (Attachments.image_step env (Attachments.in_apiKey input)
       (default 4000000 (Attachments.in_maxInlineSize input)))
    (Attachments.in_images input) (warn_no_key (Attachments.in_apiKey input) w).

Definition file_parts env (input : Attachments.BuildInput) (w : World) :=
  contributions (Attachments.file_step env (Attachments.in_apiKey input))
    (Attachments.in_files input) (image_parts env input w).2.

Lemma build_parts_eq env (input : Attachments.BuildInput) (w : World) :
  Attachments.buildGeminiParts env input w
  = (Returned (TextPart (stringOrEmpty (Attachments.in_text input))
               :: (image_parts env input w).1 ++ (file_parts env input w).1)%list,
     (file_parts env input w).2).
Proof.
  unfold Attachments.buildGeminiParts, run_build, Attachments.build_body,
    file_parts, image_parts, warn_no_key, logged.
  unfold bind at 1. cbn [parts_push parts world].
  unfold bind at 1.
  assert (Hwarn : forall ps,
    (if negb (truthy (Attachments.in_apiKey input))
     then io (console_warn "[ATTACHMENTS] No Gemini apiKey: uploads will be skipped.")
     else ret tt) (mkBuild ps w)
    = (Returned tt,
       mkBuild ps (if negb (truthy (Attachments.in_apiKey input))
                   then mkWorld (tick w)
                          (trace w ++ [EWarn "[ATTACHMENTS] No Gemini apiKey: uploads will be skipped."])
                          (fsys w)
                   else w))).
  { intros ps. by destruct (negb _). }
  rewrite Hwarn. unfold bind at 1.
  rewrite for_of_contributions by (intros; apply image_step_ok).
  unfold bind at 1.
  rewrite for_of_contributions by (intros; apply file_step_ok).
  cbn. reflexivity.
Qed.

(** The same for the module under [bots/Fuku], where a blank text is left
    out and an empty list gets one empty text part. *)
Definition fuku_opening (input : Fuku.BuildInput) : list Part :=
  if Fuku.trim_nonempty (stringOrEmpty (Fuku.in_text input))
  then [TextPart (stringOrEmpty (Fuku.in_text input))] else [].

Definition fuku_image_parts env (input : Fuku.BuildInput) (w : World) :=
  contributions (Fuku.image_step env (Fuku.in_apiKey input)) (Fuku.in_images input) w.

Definition fuku_file_parts env (input : Fuku.BuildInput) (w : World) :=
  contributions (Fuku.file_step env (Fuku.in_apiKey input)) (Fuku.in_files input)
    (fuku_image_parts env input w).2.

Definition or_empty_text (ps : list Part) : list Part :=
  match ps with [] => [TextPart ""] | _ => ps end.

Lemma fuku_build_parts_eq env (input : Fuku.BuildInput) (w : World) :
  Fuku.buildGeminiParts env input w
  = (Returned (or_empty_text (fuku_opening input ++ (fuku_image_parts env input w).1
                              ++ (fuku_file_parts env input w).1)%list),
     (fuku_file_parts env input w).2).
Proof.
  unfold Fuku.buildGeminiParts, run_build, Fuku.build_body,
    fuku_file_parts, fuku_image_parts, fuku_opening.
  unfold bind at 1.
  assert (Hopen : forall t,
    (if Fuku.trim_nonempty t then parts_push (TextPart t) else ret tt) (mkBuild [] w)
    = (Returned tt, mkBuild (if Fuku.trim_nonempty t then [TextPart t] else []) w)).
  { intros t. by destruct (Fuku.trim_nonempty t). }
  rewrite Hopen. unfold bind at 1.
  rewrite for_of_contributions by (intros; apply fuku_image_step_ok).
  unfold bind at 1.
  rewrite for_of_contributions by (intros; apply fuku_file_step_ok).
  rewrite <- app_assoc. cbn.
  match goal with |- context [or_empty_text ?l] => destruct l end; reflexivity.
Qed.

End BuilderFacts.

(** * Concrete worlds and inputs *)

Module Scenarios.
Import Js Node.

Definition no_file : UploadedFile := mkUploadedFile "" "" "" "".

Definition stored_file : UploadResponse :=
  mkUploadResponse
    (Some (mkUploadedFile "files/abc" "https://files.example/abc" "" "image/png"))
    no_file.

(** Every request is answered with an empty body, every upload is stored,
    the disk never refuses. *)
Definition calm : Env :=
  mkEnv (fun _ _ => inr []) (fun _ => None) (fun _ => "Ab3dE9")
    (fun _ => "00ff00ff00ff") (fun _ _ _ _ => inr (Some stored_file))
    "/tmp" (fun _ => "") (fun _ => "") (fun _ => "").

(** No request gets through. *)
Definition offline : Env :=
  mkEnv (fun _ _ => inl (mkError (Some "ECONNREFUSED") "connect ECONNREFUSED"))
    (fun _ => None) (fun _ => "Ab3dE9")
    (fun _ => "00ff00ff00ff") (fun _ _ _ _ => inr (Some stored_file))
    "/tmp" (fun _ => "") (fun _ => "") (fun _ => "").

Definition start : World := mkWorld 0 [] ∅.

Definition cat : Item :=
  mkItem (Some "https://cdn.example/cat.png") "cat.png" (JNum (NInt 10)) "image/png".

(** An image of nine million bytes, above both ceilings. *)
Definition big : Item :=
  mkItem (Some "https://cdn.example/big.png") "big.png" (JNum (NInt 9000000)) "image/png".

Definition notes : Item :=
  mkItem (Some "https://cdn.example/notes.bin") "notes.bin" JNull "application/x-notes".

(** [text] contains [needle]. *)
Definition mentions (needle text : string) : bool :=
  match String.index 0 needle text with Some _ => true | None => false end.

Definition says_too_large (p : Part) : bool :=
  match p with
  | TextPart t => mentions "too large" t
  | _ => false
  end.

End Scenarios.

(** * The claims about the part builder *)

Module BuilderClaims.
Import Js Node BuilderFacts Scenarios.

(** C1, as the code has it: in the module with the classifier the list
    starts with the text part holding the supplied text, the empty string
    when the text is no string.  In [bots/Fuku/utils/attachments.js] the
    list is never empty and starts with that text part when the text has a
    character that is not white space; otherwise the text is left out and
    the list is what the attachments gave, or the one empty text part. *)
Theorem build_opens_with_text (env : Env) (input : Attachments.BuildInput)
    (finput : Fuku.BuildInput) (w : World) :
  (exists rest w',
     Attachments.buildGeminiParts env input w
     = (Returned (TextPart (stringOrEmpty (Attachments.in_text input)) :: rest), w'))
  /\ (exists ps w',
        Fuku.buildGeminiParts env finput w = (Returned ps, w')
        /\ (1 <= length ps)%nat
        /\ (Fuku.trim_nonempty (stringOrEmpty (Fuku.in_text finput)) = true ->
            exists rest, ps = TextPart (stringOrEmpty (Fuku.in_text finput)) :: rest)
        /\ (Fuku.trim_nonempty (stringOrEmpty (Fuku.in_text finput)) = false ->
            ps = or_empty_text ((fuku_image_parts env finput w).1
                                ++ (fuku_file_parts env finput w).1)%list)).
Proof.
  split.
  - eexists _, _. apply build_parts_eq.
  - eexists _, _. split; [apply fuku_build_parts_eq|].
    unfold fuku_opening.
    destruct (Fuku.trim_nonempty (stringOrEmpty (Fuku.in_text finput))).
    + split; [cbn; lia|]. split; [|done]. intros _. by eexists.
    + split; [|split; [done|reflexivity]].
      cbn [app]. destruct ((fuku_image_parts env finput w).1
                           ++ (fuku_file_parts env finput w).1)%list; cbn; lia.
Qed.

Lemma build_opens_with_text_witness :
  exists rest,
    (Fuku.buildGeminiParts calm (Fuku.mkInput (JStr "look") [cat] [] "") start).1
    = Returned (TextPart "look" :: rest).
Proof.
  destruct (build_opens_with_text calm
              (Attachments.mkInput JNull [] [] "" None)
              (Fuku.mkInput (JStr "look") [cat] [] "") start)
    as (_ & ps & w' & Hrun & _ & Hfirst & _).
  destruct (Hfirst eq_refl) as [rest ->].
  exists rest. by rewrite Hrun.
Defined.

(** C1, the claim as worded fails: with an empty text and one small image
    the Fuku builder returns the inline part alone, so the list does not
    start with a text part. *)
Lemma fuku_build_empty_text_starts_with_image :
  (Fuku.buildGeminiParts calm (Fuku.mkInput (JStr "") [cat] [] "") start).1
  = Returned [InlineDataPart "image/png" ""]
  /\ ~ (exists rest,
          (Fuku.buildGeminiParts calm (Fuku.mkInput (JStr "") [cat] [] "") start).1
          = Returned (TextPart "" :: rest)).
Proof.
  assert (H : (Fuku.buildGeminiParts calm (Fuku.mkInput (JStr "") [cat] [] "") start).1
              = Returned [InlineDataPart "image/png" ""]) by (vm_compute; reflexivity).
  split; [exact H|]. rewrite H. intros [rest Hrest]. discriminate.
Qed.

(** White space beyond ASCII counts as blank too: a no-break space
    (U+00A0), a line separator (U+2028) and a byte-order mark (U+FEFF),
    in UTF-8.  A zero-width space (U+200B) is not white space to [trim],
    and a text of it is kept. *)
Definition blank_beyond_ascii : string :=
  String "194" (String "160"
    (String "226" (String "128" (String "168"
      (String "239" (String "187" (String "191" "")))))))
  ++ " ".

Definition zero_width_space : string := String "226" (String "128" (String "139" "")).

Lemma fuku_build_blank_text_beyond_ascii :
  (Fuku.buildGeminiParts calm (Fuku.mkInput (JStr blank_beyond_ascii) [cat] [] "") start).1
  = Returned [InlineDataPart "image/png" ""]
  /\ (Fuku.buildGeminiParts calm (Fuku.mkInput (JStr zero_width_space) [cat] [] "") start).1
     = Returned [TextPart zero_width_space; InlineDataPart "image/png" ""].
Proof. split; vm_compute; reflexivity. Qed.

(** The notice of the module with the classifier for an image it can
    neither inline nor upload. *)
Definition too_large_notice env (image : Item) : Part :=
  TextPart ("Attached image " ++ or_else (name image) "" ++ " ("
            ++ or_else (mimeType image)
                 (or_else (Attachments.normalizeMimeType env (name image) (mimeType image))
                    "image/png")
            ++ ") was too large to inline and could not be uploaded.").

(** C5, as the code has it.  An image whose bytes were fetched and no
    API key.  In the module with the classifier, when the image has a URL
    and its size (the declared one when it is a positive Number, the
    length of the bytes otherwise) is above [maxInlineSize], the one part
    added is the text that names the image and says it was too large to
    inline and could not be uploaded.  In the module under [bots/Fuku],
    when the size is above the module's eight megabytes, the one part
    added is the text that names the image and says it could not be
    processed.  Neither adds an inline or a file-reference part for it.
    Each module is held to its own ceiling. *)
Theorem oversized_image_without_key
    (env : Env) (apiKey : string) (maxInlineSize : Z) (image : Item)
    (buffer : Buffer) (ps : list Part) (w w1 : World) :
  truthy apiKey = false ->
  Attachments.fetchAsBuffer env (url image) w = (Returned buffer, w1) ->
  (truthy (opt_str (url image)) = true ->
   Attachments.num_gt (Attachments.actualSize (size image) buffer) maxInlineSize = true ->
   Attachments.image_step env apiKey maxInlineSize image (mkBuild ps w)
   = (Returned tt,
      mkBuild (ps ++ [too_large_notice env image])
        (logged "[ATTACHMENTS] Image exceeds inline limit and no upload path available."
           w1)))
  /\ (Attachments.num_gt (Fuku.actualSize (size image) buffer) Fuku.INLINE_LIMIT_IMAGE_BYTES
      = true ->
      Fuku.image_step env apiKey image (mkBuild ps w)
      = (Returned tt,
         mkBuild (ps ++ [image_notice image])
           (logged ("[ATTACHMENTS] Image handling error: "
                    ++ "Missing Gemini API key for file upload.") w1))).
Proof.
  intros Hkey Hfetch. split.
  - intros Hurl Hbig.
    unfold Attachments.image_step. rewrite Hurl. cbn [negb].
    unfold try_catch, Attachments.image_try. unfold bind at 1.
    unfold io at 1. cbn [world parts]. rewrite Hfetch.
    unfold Attachments.maybeInlineImage. rewrite Hbig, Hkey. cbn [negb].
    assert (forall b : bool, (if b then @None Part else None) = None) as -> by by intros [].
    reflexivity.
  - intros Hbig'.
    unfold Fuku.image_step, try_catch, Fuku.image_try. unfold bind at 1.
    unfold io at 1, Fuku.fetchAsBuffer. cbn [world parts]. rewrite Hfetch.
    unfold Fuku.maybeInlineImage. rewrite Hbig'.
    assert (forall b : bool, (if b then @None Part else None) = None) as -> by by intros [].
    unfold Fuku.uploadToGeminiFileAPI, Attachments.upload_with. rewrite Hkey.
    reflexivity.
Qed.

(** An image of five million bytes: above the four million of the
    module with the classifier, below the eight megabytes of the other. *)
Definition medium : Item :=
  mkItem (Some "https://cdn.example/mid.png") "mid.png" (JNum (NInt 5000000)) "image/png".

Lemma oversized_image_without_key_witness :
  (Attachments.image_step calm "" 4000000 big (mkBuild [TextPart "look"] start)
   = (Returned tt,
      mkBuild [TextPart "look";
               TextPart "Attached image big.png (image/png) was too large to inline and could not be uploaded."]
        (logged "[ATTACHMENTS] Image exceeds inline limit and no upload path available."
           (mkWorld 1 [EGet "https://cdn.example/big.png"] ∅)))
   /\ Fuku.image_step calm "" big (mkBuild [TextPart "look"] start)
      = (Returned tt,
         mkBuild [TextPart "look"; TextPart "Attached image could not be processed (big.png)."]
           (logged "[ATTACHMENTS] Image handling error: Missing Gemini API key for file upload."
              (mkWorld 1 [EGet "https://cdn.example/big.png"] ∅))))
  /\ Attachments.image_step calm "" 4000000 medium (mkBuild [TextPart "look"] start)
     = (Returned tt,
        mkBuild [TextPart "look";
                 TextPart "Attached image mid.png (image/png) was too large to inline and could not be uploaded."]
          (logged "[ATTACHMENTS] Image exceeds inline limit and no upload path available."
             (mkWorld 1 [EGet "https://cdn.example/mid.png"] ∅))).
Proof.
  destruct (oversized_image_without_key calm "" 4000000 big [] [TextPart "look"] start
              (mkWorld 1 [EGet "https://cdn.example/big.png"] ∅) eq_refl eq_refl)
    as [Hclassifier Hfuku].
  destruct (oversized_image_without_key calm "" 4000000 medium [] [TextPart "look"] start
              (mkWorld 1 [EGet "https://cdn.example/mid.png"] ∅) eq_refl eq_refl)
    as [Hmedium _].
  split; [split|].
  - apply Hclassifier; reflexivity.
  - apply Hfuku; reflexivity.
  - apply Hmedium; reflexivity.
Defined.

(** C5, the claim as worded fails: in [bots/Fuku/utils/attachments.js]
    the oversized image without a key ends in the notice of the [catch]
    block, and no part of the output says that it was too large. *)
Lemma fuku_oversized_image_generic_notice :
  (Fuku.buildGeminiParts calm (Fuku.mkInput (JStr "look") [big] [] "") start).1
  = Returned [TextPart "look"; TextPart "Attached image could not be processed (big.png)."]
  /\ forallb (fun p => negb (says_too_large p))
       [TextPart "look"; TextPart "Attached image could not be processed (big.png)."]
     = true.
Proof. split; vm_compute; reflexivity. Qed.

(** C8: the builder always returns.  The list it returns is the opening
    text followed by what each image and then each file added, in the order
    of the two arrays, every attachment being run in the world its
    predecessor left, whether that one failed or not; and an attachment
    whose [try] block throws adds, after what the block had pushed, the
    notice of its [catch] block.  The two modules agree on all this. *)
Theorem build_isolates_failures (env : Env) (input : Attachments.BuildInput)
    (finput : Fuku.BuildInput) (apiKey : string) (maxInlineSize : Z) (item : Item)
    (w : World) :
  Attachments.buildGeminiParts env input w
  = (Returned (TextPart (stringOrEmpty (Attachments.in_text input))
               :: (image_parts env input w).1 ++ (file_parts env input w).1)%list,
     (file_parts env input w).2)
  /\ Fuku.buildGeminiParts env finput w
     = (Returned (or_empty_text (fuku_opening finput ++ (fuku_image_parts env finput w).1
                                 ++ (fuku_file_parts env finput w).1)%list),
        (fuku_file_parts env finput w).2)
  /\ (forall e s, truthy (opt_str (url item)) = true ->
        Attachments.image_try env apiKey maxInlineSize item (mkBuild [] w) = (Threw e, s) ->
        contribution (Attachments.image_step env apiKey maxInlineSize item) w
        = ((parts s ++ [image_notice item])%list,
           logged ("[ATTACHMENTS] Image handling error: " ++ message e) (world s)))
  /\ (forall e s, truthy (opt_str (url item)) = true ->
        Attachments.file_try env apiKey item (mkBuild [] w) = (Threw e, s) ->
        contribution (Attachments.file_step env apiKey item) w
        = ((parts s ++ [file_notice item])%list,
           logged ("[ATTACHMENTS] File handling error: " ++ message e) (world s)))
  /\ (forall e s,
        Fuku.image_try env apiKey item (mkBuild [] w) = (Threw e, s) ->
        contribution (Fuku.image_step env apiKey item) w
        = ((parts s ++ [image_notice item])%list,
           logged ("[ATTACHMENTS] Image handling error: " ++ message e) (world s)))
  /\ (forall e s,
        Fuku.file_try env apiKey item (mkBuild [] w) = (Threw e, s) ->
        contribution (Fuku.file_step env apiKey item) w
        = ((parts s ++ [file_notice item])%list,
           logged ("[ATTACHMENTS] File handling error: " ++ message e) (world s))).
Proof.
  split; [apply build_parts_eq|]. split; [apply fuku_build_parts_eq|].
  repeat split.
  - intros e s Hurl Htry. unfold Attachments.image_step. rewrite Hurl. cbn [negb].
    by apply (try_catch_threw _ _ _ e s (mkBuild (parts s ++ [image_notice item]) _)).
  - intros e s Hurl Htry. unfold Attachments.file_step. rewrite Hurl. cbn [negb].
    by apply (try_catch_threw _ _ _ e s (mkBuild (parts s ++ [file_notice item]) _)).
  - intros e s Htry.
    by apply (try_catch_threw _ _ _ e s (mkBuild (parts s ++ [image_notice item]) _)).
  - intros e s Htry.
    by apply (try_catch_threw _ _ _ e s (mkBuild (parts s ++ [file_notice item]) _)).
Qed.

(** Off line, the first of two files fails and the second is still run:
    both notices are in the list, in the order of the files. *)
Lemma build_isolates_failures_witness :
  (Attachments.buildGeminiParts offline
     (Attachments.mkInput (JStr "look") [cat] [notes] "" None) start).1
  = Returned [TextPart "look";
              TextPart "Attached image could not be processed (cat.png).";
              TextPart "Attached file received but preview unavailable: notes.bin (application/x-notes)."]
  /\ contribution (Attachments.image_step offline "" 4000000 cat) start
     = ([TextPart "Attached image could not be processed (cat.png)."],
        logged "[ATTACHMENTS] Image handling error: connect ECONNREFUSED"
          (mkWorld 3 [EGet "https://cdn.example/cat.png"; EWait 500;
                      EGet "https://cdn.example/cat.png"; EWait 1000;
                      EGet "https://cdn.example/cat.png"] ∅)).
Proof.
  destruct (build_isolates_failures offline
              (Attachments.mkInput (JStr "look") [cat] [notes] "" None)
              (Fuku.mkInput (JStr "look") [cat] [notes] "")
              "" 4000000 cat start) as (Hbuild & _ & Himage & _).
  split.
  - rewrite Hbuild. vm_compute. reflexivity.
  - apply (Himage (mkError (Some "ECONNREFUSED") "connect ECONNREFUSED")
             (mkBuild [] (mkWorld 3 [EGet "https://cdn.example/cat.png"; EWait 500;
                                     EGet "https://cdn.example/cat.png"; EWait 1000;
                                     EGet "https://cdn.example/cat.png"] ∅)));
      reflexivity.
Defined.

End BuilderClaims.

(** * The history store: reading a count *)

Module CountFacts.
Import Js Store.

(** A text that [parse_digits] does not read into: empty, or starting
    with something that is no digit. *)
Definition stops (t : string) : Prop := forall acc, parse_digits t acc = acc.

Lemma stops_empty : stops "".
Proof. by intros acc. Qed.


Ltac eval_digit :=
  match goal with
  | |- context [digit_of ?c] =>
      let v := eval vm_compute in (digit_of c) in change (digit_of c) with v
  end.

Ltac eval_first_digit :=
  match goal with
  | |- context [Some (10 * 0 + ?k)] =>
      let v := eval vm_compute in (10 * 0 + k) in change (10 * 0 + k) with v
  end.

Lemma parse_digits_acc (d : Decimal.uint) (t : string) (acc : positive) :
  stops t ->
  parse_digits (NilEmpty.string_of_uint d ++ t) (Some (Z.pos acc))
  = Some (Z.pos (Pos.of_uint_acc d acc)).
Proof.
  intros Ht. revert acc.
  induction d as [|d IH|d IH|d IH|d IH|d IH|d IH|d IH|d IH|d IH|d IH]; intros acc;
    [apply Ht|..];
    cbn [NilEmpty.string_of_uint Pos.of_uint_acc];
    rewrite StringFacts.append_cons; cbn [parse_digits]; eval_digit; cbv iota;
    cbn [default]; unfold id; rewrite <- IH; do 2 f_equal; lia.
Qed.

Lemma parse_digits_zero (d : Decimal.uint) (t : string) :
  stops t ->
  parse_digits (NilEmpty.string_of_uint d ++ t) (Some 0) = Some (Z.of_N (Pos.of_uint d)).
Proof.
  intros Ht.
  induction d as [|d IH|d IH|d IH|d IH|d IH|d IH|d IH|d IH|d IH|d IH];
    [apply Ht|..];
    cbn [NilEmpty.string_of_uint Pos.of_uint];
    rewrite StringFacts.append_cons; cbn [parse_digits]; eval_digit; cbv iota;
    cbn [default]; unfold id; eval_first_digit; cbn [Z.of_N];
    [exact IH | by apply parse_digits_acc ..].
Qed.

Lemma parse_digits_start (d : Decimal.uint) (t : string) :
  stops t -> d <> Decimal.Nil ->
  parse_digits (NilEmpty.string_of_uint d ++ t) None = Some (Z.of_N (Pos.of_uint d)).
Proof.
  intros Ht Hd. destruct d; [done|..];
    cbn [NilEmpty.string_of_uint Pos.of_uint];
    rewrite StringFacts.append_cons; cbn [parse_digits]; eval_digit; cbv iota;
    cbn [default]; unfold id; eval_first_digit; cbn [Z.of_N];
    [by apply parse_digits_zero | by apply parse_digits_acc ..].
Qed.

Lemma parseInt_digit_head (d : Decimal.uint) (t : string) :
  d <> Decimal.Nil ->
  parseInt (NilEmpty.string_of_uint d ++ t)
  = read_digits false (NilEmpty.string_of_uint d ++ t)
  /\ parseInt (String "-" (NilEmpty.string_of_uint d ++ t))
     = read_digits true (NilEmpty.string_of_uint d ++ t).
Proof.
  intros Hd. destruct d; [done|..];
    cbn [NilEmpty.string_of_uint]; rewrite StringFacts.append_cons;
    split; reflexivity.
Qed.

Lemma natural_digits (n : N) :
  N.to_uint n <> Decimal.Nil
  /\ NilZero.string_of_uint (N.to_uint n) = NilEmpty.string_of_uint (N.to_uint n)
  /\ Pos.of_uint (N.to_uint n) = n.
Proof.
  split; [|split].
  - destruct n; [done | apply DecimalPos.Unsigned.to_uint_nonnil].
  - unfold NilZero.string_of_uint.
    destruct n as [|p]; [done|]. cbn [N.to_uint].
    pose proof (DecimalPos.Unsigned.to_uint_nonnil p). by destruct (Pos.to_uint p).
  - apply DecimalN.Unsigned.of_to.
Qed.

(** ** Rounding to a Number *)

Lemma to_double_small (n : Z) : n < 2 ^ 53 -> to_double n = Some n.
Proof. intros H%Z.ltb_lt. unfold to_double. by rewrite H. Qed.





(** ** Reading numerals *)

Lemma parse_natural (n : N) (t : string) :
  stops t ->
  parse_digits (NilEmpty.string_of_uint (N.to_uint n) ++ t) None = Some (Z.of_N n).
Proof.
  intros Ht. destruct (natural_digits n) as (Hnn & _ & Hof).
  by rewrite parse_digits_start, Hof.
Qed.


Lemma parseInt_negative (n : N) (t : string) :
  stops t -> Z.of_N n < 2 ^ 53 ->
  parseInt (String "-" (NilZero.string_of_uint (N.to_uint n) ++ t))
  = Integer (- Z.of_N n).
Proof.
  intros Ht Hn. destruct (natural_digits n) as (Hnn & -> & _).
  destruct (parseInt_digit_head (N.to_uint n) t Hnn) as [_ ->].
  unfold read_digits. by rewrite parse_natural, to_double_small.
Qed.

Lemma append_empty (s : string) : s ++ "" = s.
Proof. induction s as [|c s IH]; [done|]. by rewrite StringFacts.append_cons, IH. Qed.

(** The numeral of an integer, read back: the integer rounded to a
    Number. *)
Lemma parseInt_decimal_rounds (z : Z) :
  parseInt (decimal z)
  = match to_double (Z.abs z) with
    | Some v => Integer (if z <? 0 then - v else v)
    | None => Infinite (z <? 0)
    end.
Proof.
  unfold decimal. destruct z as [|p|p].
  - reflexivity.
  - cbn [Z.to_int NilZero.string_of_int Z.abs Z.ltb Z.compare].
    destruct (natural_digits (N.pos p)) as (Hnn & Heq & _). cbn [N.to_uint] in Hnn, Heq.
    rewrite Heq.
    destruct (parseInt_digit_head (Pos.to_uint p) "" Hnn) as [Hhead _].
    rewrite append_empty in Hhead. rewrite Hhead. unfold read_digits.
    pose proof (parse_natural (N.pos p) "" stops_empty) as Hp.
    cbn [N.to_uint] in Hp. rewrite append_empty in Hp. by rewrite Hp.
  - cbn [Z.to_int NilZero.string_of_int Z.abs Z.ltb Z.compare].
    destruct (natural_digits (N.pos p)) as (Hnn & Heq & _). cbn [N.to_uint] in Hnn, Heq.
    rewrite Heq.
    destruct (parseInt_digit_head (Pos.to_uint p) "" Hnn) as [_ Hhead].
    rewrite append_empty in Hhead. rewrite Hhead. unfold read_digits.
    pose proof (parse_natural (N.pos p) "" stops_empty) as Hp.
    cbn [N.to_uint] in Hp. rewrite append_empty in Hp. by rewrite Hp.
Qed.

(** An integer that a Number holds exactly is read back as itself. *)
Lemma parseInt_decimal (z : Z) : Z.abs z < 2 ^ 53 -> parseInt (decimal z) = Integer z.
Proof.
  intros Hz. rewrite parseInt_decimal_rounds, to_double_small by done.
  f_equal. destruct (z <? 0) eqn:H; [apply Z.ltb_lt in H | apply Z.ltb_ge in H]; lia.
Qed.



Lemma DEFAULT_KEEP_positive (HISTORY_LIMIT : option string) :
  1 <= DEFAULT_KEEP HISTORY_LIMIT.
Proof. unfold DEFAULT_KEEP. destruct (parseInt _); lia. Qed.

Lemma normalizeCount_positive (v : JsVal) (fallback : Z) :
  0 < fallback -> 0 < normalizeCount v fallback.
Proof.
  intros H. unfold normalizeCount.
  destruct (parseInt _) as [n| |]; [|done..].
  destruct (0 <? n) eqn:Hn; [by apply Z.ltb_lt in Hn | done].
Qed.







(** ** Numbers in exponent notation *)














End CountFacts.

(** * The history store: the SQL statements *)

Module SqlFacts.
Import Js Store.
Local Open Scope list_scope.

Definition entry_of (r : Row) : Entry := mkEntry (r_role r) (r_content r) (r_ts r).

(** The [WHERE] clause selects the rows whose three key columns are the
    three parameters, NULL matching NULL only. *)
Lemma where_key_spec (u : string) (g c : option string) (r : Row) :
  where_key u g c r = true <-> user_id r = u /\ guild_id r = g /\ channel_id r = c.
Proof.
  unfold where_key, nullable_match, sql_eq, sql_is_null.
  destruct (String.eqb_spec (user_id r) u) as [Hu|Hu];
    destruct (guild_id r) as [g'|], g as [g0|];
    destruct (channel_id r) as [c'|], c as [c0|]; cbn;
    repeat match goal with
           | |- context [String.eqb ?a ?b] => destruct (String.eqb_spec a b)
           end; cbn;
    (split;
     [ intros H; first [discriminate H | repeat split; congruence]
     | intros (? & ? & ?); first [reflexivity | congruence] ]).
Qed.




Lemma insert_desc_perm (x : Row) (l : list Row) : insert_desc x l ≡ₚ x :: l.
Proof.
  induction l as [|y l IH]; cbn; [done|].
  destruct (before_desc y x); [|done].
  rewrite IH. apply Permutation_swap.
Qed.

Lemma order_desc_perm (l : list Row) : order_desc l ≡ₚ l.
Proof.
  induction l as [|x l IH]; cbn; [done|].
  change (foldr insert_desc [] l) with (order_desc l).
  by rewrite insert_desc_perm, IH.
Qed.








End SqlFacts.

(** * The history store: what a key holds *)

Module StoreFacts.
Import Js Store SqlFacts CountFacts.
Local Open Scope list_scope.


Lemma slice_last_app (n : Z) (a b : list Entry) :
  slice_last n (slice_last n a ++ b) = slice_last n (a ++ b).
Proof.
  unfold slice_last. rewrite !length_app, length_drop.
  destruct (decide (length a <= Z.to_nat n)%nat) as [Hle|Hgt].
  - replace (length a - Z.to_nat n)%nat with 0%nat by lia.
    rewrite drop_0. f_equal. lia.
  - replace (length a - (length a - Z.to_nat n) + length b - Z.to_nat n)%nat
      with (length b) by lia.
    replace (length a + length b - Z.to_nat n)%nat
      with ((length a - Z.to_nat n) + length b)%nat by lia.
    rewrite <- drop_drop. f_equal.
    rewrite drop_app_le by lia. reflexivity.
Qed.

Lemma slice_last_idem (n : Z) (a : list Entry) :
  slice_last n (slice_last n a) = slice_last n a.
Proof.
  pose proof (slice_last_app n a []) as H. by rewrite !app_nil_r in H.
Qed.


Lemma rowid_below_next (t : list Row) (r : Row) : r ∈ t -> rowid r < next_rowid t.
Proof.
  unfold next_rowid. induction t as [|x t IH]; [by intros ?%elem_of_nil|].
  intros [->|Hin]%elem_of_cons; cbn [foldr]; [lia|].
  specialize (IH Hin). lia.
Qed.

Section History.
Variable HISTORY_LIMIT : option string.

(** What the store holds for a key, oldest first: the array of the
    in-memory backend, or the key's rows in the order opposite to
    [ORDER BY ts DESC, rowid DESC]. *)
Definition history (k : Key) (st : State) : list Entry :=
  if useMemoryStore st
  then default [] (memoryStore st !! getMemoryKey (userId k) (guildId k) (channelId k))
  else reverse (entry_of <$> select_key_desc (userId k) (guildId k) (channelId k)
                               (messages st)).


Definition keep_of (keep : JsVal) : Z :=
  normalizeCount (with_default HISTORY_LIMIT keep) (DEFAULT_KEEP HISTORY_LIMIT).

Lemma keep_of_positive (keep : JsVal) : 0 < keep_of keep.
Proof.
  apply normalizeCount_positive.
  pose proof (DEFAULT_KEEP_positive HISTORY_LIMIT). lia.
Qed.

Lemma read_history (k : Key) (limit : JsVal) (st : State) :
  getLastMessages HISTORY_LIMIT k limit st = slice_last (keep_of limit) (history k st).
Proof.
  unfold getLastMessages, history, normalizeId, keep_of, slice_last.
  destruct (useMemoryStore st); cbn [negb]; [reflexivity|].
  unfold selectStmt.
  change (fun r => mkEntry (r_role r) (r_content r) (r_ts r)) with entry_of.
  rewrite fmap_take, reverse_take, length_reverse. reflexivity.
Qed.

Lemma push_backend (k : Key) rl ct keep now st :
  useMemoryStore (pushMessage HISTORY_LIMIT k rl ct keep now st) = useMemoryStore st.
Proof. unfold pushMessage. by destruct (useMemoryStore st). Qed.








(** A write under one key leaves every other key of the SQLite backend
    as it was. *)
Lemma same_rowid_same_row (t : list Row) (x y : Row) :
  NoDup (rowid <$> t) -> x ∈ t -> y ∈ t -> rowid x = rowid y -> x = y.
Proof.
  induction t as [|z t IH]; [by intros _ ?%elem_of_nil|].
  rewrite fmap_cons, NoDup_cons. intros [Hz Hnd] Hx Hy Heq.
  apply elem_of_cons in Hx as [->|Hx]; apply elem_of_cons in Hy as [->|Hy].
  - done.
  - exfalso. apply Hz. rewrite Heq. by apply list_elem_of_fmap_2.
  - exfalso. apply Hz. rewrite <- Heq. by apply list_elem_of_fmap_2.
  - by apply IH.
Qed.

Lemma filter_ext_in (P Q : Row -> Prop) `{!forall r, Decision (P r)}
    `{!forall r, Decision (Q r)} (l : list Row) :
  (forall r, r ∈ l -> P r <-> Q r) -> filter P l = filter Q l.
Proof.
  induction l as [|x l IH]; intros Hext; [done|].
  rewrite !filter_cons.
  assert (Hl : filter P l = filter Q l) by (apply IH; intros r Hr; apply Hext; by right).
  destruct (decide (P x)) as [Hp|Hp], (decide (Q x)) as [Hq|Hq].
  - by rewrite Hl.
  - exfalso. apply Hq, Hext; [left | done].
  - exfalso. apply Hp, Hext; [left | done].
  - done.
Qed.

Lemma push_other_key (k k' : Key) rl ct keep now st :
  useMemoryStore st = false ->
  NoDup (rowid <$> messages st) ->
  (userId k, guildId k, channelId k) <> (userId k', guildId k', channelId k') ->
  history k' (pushMessage HISTORY_LIMIT k rl ct keep now st) = history k' st.
Proof.
  intros Hsql Hnd Hne. unfold history. rewrite push_backend, Hsql.
  unfold pushMessage, normalizeId. rewrite Hsql. cbn [negb messages].
  do 2 f_equal. unfold select_key_desc. f_equal.
  set (t1 := insertStmt (userId k) (guildId k) (channelId k) rl ct now (messages st)).
  assert (Hnd1 : NoDup (rowid <$> t1)).
  { unfold t1, insertStmt. rewrite fmap_app. apply NoDup_app.
    split; [done|]. split; [|apply NoDup_singleton].
    intros z (y & -> & Hin)%list_elem_of_fmap_1 Hz.
    apply list_elem_of_singleton in Hz. pose proof (rowid_below_next _ y Hin).
    cbn in Hz. lia. }
  unfold trimStmt. fold t1. rewrite list_filter_filter.
  transitivity (filter (fun r => where_key (userId k') (guildId k') (channelId k') r = true) t1).
  - apply filter_ext_in. intros r Hr. split; [by intros [? _]|].
    intros Hk'. split; [done|].
    intros (y & Hrow & Hy)%list_elem_of_fmap_1.
    apply subseteq_drop in Hy. fold (select_key_desc (userId k) (guildId k) (channelId k) t1) in Hy.
    unfold select_key_desc in Hy. rewrite order_desc_perm in Hy.
    apply list_elem_of_filter in Hy as [Hky Hy].
    assert (r = y) as -> by by apply (same_rowid_same_row t1).
    apply where_key_spec in Hky as (? & ? & ?), Hk' as (? & ? & ?).
    apply Hne. congruence.
  - unfold t1, insertStmt. rewrite filter_app, filter_cons_False, filter_nil, app_nil_r.
    + reflexivity.
    + intros (? & ? & ?)%where_key_spec. cbn in *. apply Hne. congruence.
Qed.

End History.
End StoreFacts.

(** * The claims about the history store *)

Module StoreClaims.
Import Js Store SqlFacts CountFacts StoreFacts.
Local Open Scope list_scope.


(** The same user and channel, once without a guild and once with the
    empty string as guild id. *)
Definition dm_key : Key := mkKey "test-user" None (Some "test-channel").
Definition empty_guild_key : Key := mkKey "test-user" (Some "") (Some "test-channel").

Definition memory_store : State := mkState true ∅ [].







(** C3, where the code goes wrong: in the in-memory backend the key
    without a guild and the key with the empty guild id are one bucket.  An
    entry written under the first is read under the second, and clearing
    the second removes it from the first. *)
Theorem memory_backend_merges_null_and_empty_guild :
  getMemoryKey "test-user" None (Some "test-channel")
  = getMemoryKey "test-user" (Some "") (Some "test-channel")
  /\ getLastMessages None empty_guild_key JUndefined
       (pushMessage None dm_key User "hello" JUndefined 1700000000000 memory_store)
     = [mkEntry User "hello" 1700000000000]
  /\ getLastMessages None dm_key JUndefined
       (clearHistory empty_guild_key
          (pushMessage None dm_key User "hello" JUndefined 1700000000000 memory_store))
     = [].
Proof. repeat split; vm_compute; reflexivity. Qed.

(** The SQLite backend does keep the two apart, as it keeps any two
    different keys apart. *)
Lemma sqlite_backend_keeps_null_and_empty_guild_apart
    (HISTORY_LIMIT : option string) (u : string) (c : option string) rl ct keep now limit st :
  useMemoryStore st = false ->
  NoDup (rowid <$> messages st) ->
  getLastMessages HISTORY_LIMIT (mkKey u (Some "") c) limit
    (pushMessage HISTORY_LIMIT (mkKey u None c) rl ct keep now st)
  = getLastMessages HISTORY_LIMIT (mkKey u (Some "") c) limit st.
Proof.
  intros Hsql Hnd. rewrite !read_history.
  by rewrite (push_other_key HISTORY_LIMIT (mkKey u None c) (mkKey u (Some "") c)).
Qed.





End StoreClaims.

(** * Uploads in concrete worlds *)

Module UploadScenario.
Import Js Node Attachments UploadFacts Scenarios.

Definition tmp_dir : string := "/tmp/gemini-upload-Ab3dE9".
Definition tmp_file : string := "/tmp/gemini-upload-Ab3dE9/cat.png".

Definition after_mkdtemp : World :=
  mkWorld 1 [EMkdtemp "/tmp/gemini-upload-"] {[ tmp_dir := KDir ]}.

Definition after_writeFile : World :=
  mkWorld 2 [EMkdtemp "/tmp/gemini-upload-"; EWriteFile tmp_file]
    (<[ tmp_file := KFile ]> {[ tmp_dir := KDir ]}).

(** The upload of [cat.png] returns the reference to the stored file and
    leaves neither the temporary file nor its directory. *)
Lemma upload_removes_temp_files_witness :
  exists w5,
    uploadToGeminiFileAPI calm [] "image/png" "cat.png" "key" start
    = (Returned (FileRefPart "files/abc" "image/png"), w5)
    /\ fsys w5 !! tmp_file = None /\ fsys w5 !! tmp_dir = None.
Proof.
  destruct (upload_removes_temp_files calm file_handle [] "image/png" "cat.png" "key"
              tmp_dir "cat.png" start after_mkdtemp after_mkdtemp after_writeFile)
    as (o & w4 & w5 & Hreq & Hcall & _ & Hgone);
    [reflexivity | vm_compute; reflexivity | reflexivity | vm_compute; reflexivity |].
  exists w5.
  assert (Hrun : upload_request calm file_handle (path_join tmp_dir "cat.png") "cat.png"
                   "image/png" "cat.png" after_writeFile
                 = (Returned (FileRefPart "files/abc" "image/png"),
                    mkWorld 3 [EMkdtemp "/tmp/gemini-upload-"; EWriteFile tmp_file;
                               EUploadFile tmp_file "image/png" "cat.png"]
                      (fsys after_writeFile))) by reflexivity.
  rewrite Hrun in Hreq. injection Hreq as <- <-.
  split; [exact Hcall|].
  apply Hgone. reflexivity.
Defined.

(** The world of [calm], except that the fourth call to the outside, the
    [unlink], finds the file gone. *)
Definition swept : Env :=
  mkEnv (axios_get calm)
    (fun t => if (t =? 3)%nat then Some (ENOENT tmp_file) else None)
    (random_suffix calm) (random_hex calm) (upload_api calm) (os_tmpdir calm)
    (path_extname calm) (base64 calm) (utf8 calm).

(** C9, the claim as worded fails: the [unlink] of the cleanup raises
    ENOENT, the upload still returns its file reference, and nothing is
    logged. *)
Lemma upload_cleanup_enoent_not_logged :
  fs_fault swept 3 = Some (ENOENT tmp_file)
  /\ (uploadToGeminiFileAPI swept [] "image/png" "cat.png" "key" start).1
     = Returned (FileRefPart "files/abc" "image/png")
  /\ trace (uploadToGeminiFileAPI swept [] "image/png" "cat.png" "key" start).2
     = [EMkdtemp "/tmp/gemini-upload-"; EWriteFile tmp_file;
        EUploadFile tmp_file "image/png" "cat.png"; EUnlink tmp_file; ERm tmp_dir].
Proof. repeat split; vm_compute; reflexivity. Qed.

End UploadScenario.

(** * Sorting attachments into images and files *)

Module ParseFacts.
Import Js Node StringFacts ClassifierFacts.
Local Open Scope list_scope.

Lemma or_else_truthy (a b : string) : truthy b = true -> truthy (or_else a b) = true.
Proof. intros Hb. unfold or_else. by destruct (truthy a) eqn:Ha. Qed.

Lemma lookup_or_truthy (table : gmap string string) (k fallback : string) :
  truthy fallback = true -> truthy (Attachments.lookup_or table k fallback) = true.
Proof. apply or_else_truthy. Qed.

Lemma ltb_length_nonempty {A} (l : list A) : (0 <? length l)%nat = true <-> l <> [].
Proof. by destruct l. Qed.

Lemma extToMime_lookup (name : string) :
  Attachments.extToMime name
  = default "application/octet-stream"
      (Attachments.MIME_BY_EXTENSION !! ("." ++ toLowerCase (split_dot_pop name))%string).
Proof.
  unfold Attachments.extToMime. rewrite or_else_empty.
  set (ext := toLowerCase (split_dot_pop name)).
  repeat match goal with
         | |- context [String.eqb ext ?lit] =>
             destruct (String.eqb_spec ext lit) as [->|_];
             [vm_compute; reflexivity|]
         end.
  cbn [orb]. apply lookup_or_default.
Qed.

(** The [switch] of [extToMime] adds nothing to the table: for every
    name the result is the table's entry for the lower-cased text after
    the last dot, and the generic type where the table has none. *)
Theorem extToMime_is_table_lookup (name : string) :
  Attachments.extToMime name
  = default "application/octet-stream"
      (Attachments.MIME_BY_EXTENSION !! ("." ++ toLowerCase (split_dot_pop name))%string).
Proof. apply extToMime_lookup. Qed.

Lemma extToMime_truthy (name : string) : truthy (Attachments.extToMime name) = true.
Proof.
  rewrite extToMime_lookup.
  destruct (Attachments.MIME_BY_EXTENSION !! _) as [v|] eqn:Hv; [|done].
  by apply (table_values_truthy _ _ Hv).
Qed.

Lemma classified_mime_truthy (a : Attachments.DiscordAttachment) :
  Attachments.c_mimeType (Attachments.classifyDiscordAttachment a) <> "".
Proof.
  apply truthy_spec.
  unfold Attachments.classifyDiscordAttachment; cbn [Attachments.c_mimeType].
  unfold or_else at 1.
  destruct (truthy (stringOrEmpty (Attachments.att_contentType a))) eqn:Hd; [done|].
  destruct (Attachments.has _ _); [apply extToMime_truthy|].
  destruct (_ && _); [done|]. by apply lookup_or_truthy.
Qed.

(** The classifier never leaves the MIME type empty. *)
Theorem classify_mimeType_nonempty (a : Attachments.DiscordAttachment) :
  Attachments.c_mimeType (Attachments.classifyDiscordAttachment a) <> "".
Proof. apply classified_mime_truthy. Qed.

(** ** [parseDiscordAttachments] of the module with the classifier *)

Definition usable (a : Attachments.DiscordAttachment) : bool :=
  truthy (opt_str (Attachments.c_url (Attachments.classifyDiscordAttachment a))).

Definition normalized (a : Attachments.DiscordAttachment) : Attachments.Normalized :=
  let c := Attachments.classifyDiscordAttachment a in
  Attachments.mkNormalized (Attachments.c_url c) (Attachments.c_name c)
    (Attachments.c_size c) (Attachments.c_mimeType c)
    (Attachments.c_width c) (Attachments.c_height c).

Definition is_image (a : Attachments.DiscordAttachment) : bool :=
  Attachments.isImage (Attachments.classifyDiscordAttachment a).

Lemma parse_loop (atts : list Attachments.DiscordAttachment)
    (acc : list Attachments.Normalized * list Attachments.Normalized) :
  foldl Attachments.parse_step acc atts
  = (acc.1 ++ (normalized <$> filter (fun a => usable a && is_image a = true) atts),
     acc.2 ++ (normalized <$> filter (fun a => usable a && negb (is_image a) = true) atts)).
Proof.
  revert acc. induction atts as [|a atts IH]; intros [imgs fls].
  - cbn. by rewrite !app_nil_r.
  - cbn [foldl]. rewrite IH. unfold Attachments.parse_step.
    fold (usable a). fold (normalized a). fold (is_image a).
    rewrite !filter_cons.
    destruct (usable a), (is_image a); cbn [negb andb fst snd];
      repeat case_decide; try congruence;
      cbn [fmap list_fmap]; by rewrite <- ?app_assoc.
Qed.

(** The parser keeps the attachments that have a URL, each in exactly one
    of the two arrays and in the order of the message: the images are those
    the classifier calls images, the files are the others.  The two flags
    say whether the arrays are non-empty, and every object handed on has a
    URL and a MIME type, so the builder skips none of them. *)
Theorem parse_partitions_by_classifier (atts : list Attachments.DiscordAttachment) :
  let r := Attachments.parseDiscordAttachments (Some atts) in
  Attachments.images r
  = normalized <$> filter (fun a => usable a && is_image a = true) atts
  /\ Attachments.files r
     = normalized <$> filter (fun a => usable a && negb (is_image a) = true) atts
  /\ (length (Attachments.images r) + length (Attachments.files r)
      = length (filter (fun a => usable a = true) atts))%nat
  /\ (Attachments.hasImages r = true <-> Attachments.images r <> [])
  /\ (Attachments.hasFiles r = true <-> Attachments.files r <> [])
  /\ (forall n, n ∈ Attachments.images r ++ Attachments.files r ->
        truthy (opt_str (Attachments.n_url n)) = true
        /\ Attachments.n_mimeType n <> "").
Proof.
  cbn zeta. unfold Attachments.parseDiscordAttachments.
  rewrite parse_loop. cbn [fst snd app Attachments.images Attachments.files
                            Attachments.hasImages Attachments.hasFiles].
  split; [done|]. split; [done|]. split.
  { rewrite !length_fmap. induction atts as [|a atts IH]; [done|].
    rewrite !filter_cons.
    destruct (usable a), (is_image a); cbn [negb andb];
      repeat case_decide; try congruence; cbn [length]; lia. }
  split; [apply ltb_length_nonempty|]. split; [apply ltb_length_nonempty|].
  intros n [Hn|Hn]%elem_of_app;
    apply list_elem_of_fmap_1 in Hn as (a & -> & Ha);
    apply list_elem_of_filter in Ha as [Ha _];
    apply andb_true_iff in Ha as [Hu _];
    (split; [exact Hu | apply classified_mime_truthy]).
Qed.

(** ** [parseDiscordAttachments] of [bots/Fuku/utils/attachments.js] *)

Section Fuku.
Variable env : Env.

Definition fuku_item (a : Fuku.RawAttachment) : Item :=
  mkItem (Fuku.raw_url a) (opt_str (Fuku.raw_name a))
    (Fuku.number_or_zero (Fuku.raw_size a))
    (Fuku.normalizeMimeType env (opt_str (Fuku.raw_name a))
       (opt_str (Fuku.raw_contentType a))).

Definition fuku_is_image (a : Fuku.RawAttachment) : bool :=
  Fuku.isImageAttachment env (opt_str (Fuku.raw_name a))
    (Fuku.normalizeMimeType env (opt_str (Fuku.raw_name a))
       (opt_str (Fuku.raw_contentType a))).

Lemma fuku_declared_image (name rest : string) :
  Fuku.isImageAttachment env name
    (Fuku.normalizeMimeType env name ("image/" ++ rest)%string) = true.
Proof.
  unfold Fuku.normalizeMimeType.
  change ("image/" ++ rest)%string with (String "i" ("mage/" ++ rest)%string).
  cbn [truthy]. unfold Fuku.isImageAttachment.
  destruct (Attachments.has Fuku.IMAGE_EXTS _); [done|].
  assert (startsWith (String "i" ("mage/" ++ rest)%string) "image/" = true) as ->; [|done].
  apply startsWith_spec. by exists rest.
Qed.

Lemma fuku_parse_loop (atts : list Fuku.RawAttachment) (acc : list Item * list Item) :
  foldl (Fuku.parse_step env) acc atts
  = (acc.1 ++ (fuku_item <$> filter (fun a => fuku_is_image a = true) atts),
     acc.2 ++ (fuku_item <$> filter (fun a => negb (fuku_is_image a) = true) atts)).
Proof.
  revert acc. induction atts as [|a atts IH]; intros [imgs fls].
  - cbn. by rewrite !app_nil_r.
  - cbn [foldl]. rewrite IH. unfold Fuku.parse_step.
    fold (fuku_is_image a). fold (fuku_item a).
    rewrite !filter_cons.
    destruct (fuku_is_image a); cbn [negb fst snd];
      repeat case_decide; try congruence;
      cbn [fmap list_fmap]; by rewrite <- ?app_assoc.
Qed.

(** The Fuku parser drops nothing: every attachment of the collection,
    with or without URL, lands in exactly one of the two arrays, in the
    order of the collection; one that declares an [image/] type lands among
    the images; and every size handed on is a Number. *)
Theorem fuku_parse_keeps_every_attachment (atts : list Fuku.RawAttachment) :
  let r := Fuku.parseDiscordAttachments env (Some atts) in
  Fuku.images r = fuku_item <$> filter (fun a => fuku_is_image a = true) atts
  /\ Fuku.files r = fuku_item <$> filter (fun a => negb (fuku_is_image a) = true) atts
  /\ (length (Fuku.images r) + length (Fuku.files r) = length atts)%nat
  /\ (forall a rest, a ∈ atts ->
        Fuku.raw_contentType a = Some ("image/" ++ rest)%string ->
        fuku_item a ∈ Fuku.images r)
  /\ (forall i, i ∈ Fuku.images r ++ Fuku.files r -> exists x, size i = JNum x).
Proof.
  cbn zeta. unfold Fuku.parseDiscordAttachments.
  assert (Hloop : (if (0 <? length atts)%nat
                   then foldl (Fuku.parse_step env) ([], []) atts else ([], []))
                  = (fuku_item <$> filter (fun a => fuku_is_image a = true) atts,
                     fuku_item <$> filter (fun a => negb (fuku_is_image a) = true) atts)).
  { destruct atts as [|a atts]; [done|]. cbn [length Nat.ltb Nat.leb].
    by rewrite fuku_parse_loop. }
  rewrite Hloop. clear Hloop. cbn [Fuku.images Fuku.files].
  split; [done|]. split; [done|]. split.
  { rewrite !length_fmap. induction atts as [|a atts IH]; [done|].
    rewrite !filter_cons.
    destruct (fuku_is_image a); cbn [negb];
      repeat case_decide; try congruence; cbn [length]; lia. }
  split.
  { intros a rest Ha Hct. apply list_elem_of_fmap_2, list_elem_of_filter.
    split; [|done]. unfold fuku_is_image. rewrite Hct. cbn [opt_str default].
    apply fuku_declared_image. }
  intros i [Hi|Hi]%elem_of_app;
    apply list_elem_of_fmap_1 in Hi as (a & -> & _);
    cbn [size fuku_item]; unfold Fuku.number_or_zero;
    destruct (Fuku.raw_size a); by eexists.
Qed.

End Fuku.
End ParseFacts.

(** * The part builder, path by path *)

Module BuilderPaths.
Import Js Node BuilderFacts Scenarios.

(** The MIME type each module works with for an image and for a file. *)
Definition image_mime env (image : Item) : string :=
  or_else (mimeType image)
    (or_else (Attachments.normalizeMimeType env (name image) (mimeType image)) "image/png").

Definition fuku_image_mime env (image : Item) : string :=
  or_else (mimeType image) (Fuku.normalizeMimeType env (name image) "").

Definition file_mime env (file : Item) : string :=
  or_else (mimeType file)
    (or_else (Attachments.normalizeMimeType env (name file) "") "application/octet-stream").

Definition fuku_file_mime env (file : Item) : string :=
  or_else (mimeType file)
    (or_else (Fuku.normalizeMimeType env (name file) "") "application/octet-stream").

Definition file_label (file : Item) : string := or_else (name file) "file attachment".

(** What a fetched file is announced with: its descriptor and, for a
    text-like file of at most one megabyte, its decoded contents. *)
Definition announced env (mime : string) (file : Item) (buffer : Buffer) : list Part :=
  TextPart ("Attached file: "
            ++ (file_label file ++ " (" ++ mime ++ ", "
                ++ Attachments.formatSize (buffer_length buffer) ++ ")")
            ++ ".")
  :: (if Attachments.isTextLikeAttachment env (name file) mime
         && (buffer_length buffer <=? Attachments.INLINE_LIMIT_TEXT_BYTES)
      then [TextPart (Attachments.contents_header (file_label file) ++ utf8 env buffer)]
      else []).

Ltac finish_step :=
  cbn; unfold Attachments.file_catch, bind, parts_push, ret, io, console_warn, emit, logged;
  cbn; rewrite <- ?app_assoc; reflexivity.

(** An image whose bytes were fetched, whose MIME type starts with
    [image/] and whose size is within the ceiling contributes exactly the
    inline part with the base64 text of those bytes; nothing is uploaded
    and nothing logged, with or without API key. *)
Theorem small_image_is_inlined (env : Env) (apiKey : string) (maxInlineSize : Z)
    (image : Item) (buffer : Buffer) (ps : list Part) (w w1 : World) :
  truthy (opt_str (url image)) = true ->
  Attachments.fetchAsBuffer env (url image) w = (Returned buffer, w1) ->
  startsWith (image_mime env image) "image/" = true ->
  Attachments.num_gt (Attachments.actualSize (size image) buffer) maxInlineSize = false ->
  Attachments.image_step env apiKey maxInlineSize image (mkBuild ps w)
  = (Returned tt,
     mkBuild (ps ++ [InlineDataPart (image_mime env image) (base64 env buffer)])%list w1).
Proof.
  intros Hurl Hfetch Hmime Hsize.
  unfold Attachments.image_step. rewrite Hurl. cbn [negb].
  unfold try_catch, Attachments.image_try. unfold bind at 1.
  unfold io at 1. cbn [world parts]. rewrite Hfetch.
  fold (image_mime env image).
  unfold Attachments.maybeInlineImage. rewrite Hmime, Hsize. reflexivity.
Qed.

Lemma small_image_is_inlined_witness :
  Attachments.image_step calm "" 4000000 cat (mkBuild [TextPart "look"] start)
  = (Returned tt,
     mkBuild [TextPart "look"; InlineDataPart "image/png" ""]
       (mkWorld 1 [EGet "https://cdn.example/cat.png"] ∅)).
Proof.
  apply (small_image_is_inlined calm "" 4000000 cat [] [TextPart "look"] start
           (mkWorld 1 [EGet "https://cdn.example/cat.png"] ∅)); reflexivity.
Defined.

(** The same in [bots/Fuku/utils/attachments.js], where an image without
    any MIME type is taken for a PNG and the ceiling is the module's
    constant of eight megabytes. *)
Theorem fuku_small_image_is_inlined (env : Env) (apiKey : string)
    (image : Item) (buffer : Buffer) (ps : list Part) (w w1 : World) :
  Attachments.fetchAsBuffer env (url image) w = (Returned buffer, w1) ->
  startsWith (or_else (fuku_image_mime env image) "image/png") "image/" = true ->
  Attachments.num_gt (Fuku.actualSize (size image) buffer) Fuku.INLINE_LIMIT_IMAGE_BYTES
    = false ->
  Fuku.image_step env apiKey image (mkBuild ps w)
  = (Returned tt,
     mkBuild (ps ++ [InlineDataPart (or_else (fuku_image_mime env image) "image/png")
                       (base64 env buffer)])%list w1).
Proof.
  intros Hfetch Hmime Hsize.
  unfold Fuku.image_step, try_catch, Fuku.image_try. unfold bind at 1.
  unfold io at 1, Fuku.fetchAsBuffer. cbn [world parts]. rewrite Hfetch.
  fold (fuku_image_mime env image).
  unfold Fuku.maybeInlineImage. rewrite Hmime, Hsize. reflexivity.
Qed.

Lemma fuku_small_image_is_inlined_witness :
  Fuku.image_step calm "" cat (mkBuild [] start)
  = (Returned tt,
     mkBuild [InlineDataPart "image/png" ""]
       (mkWorld 1 [EGet "https://cdn.example/cat.png"] ∅)).
Proof.
  apply (fuku_small_image_is_inlined calm "" cat [] [] start
           (mkWorld 1 [EGet "https://cdn.example/cat.png"] ∅)); reflexivity.
Defined.

(** An image whose MIME type does not start with [image/] is never
    inlined, however small: without an API key the module with the
    classifier reports it as too large. *)
Theorem image_of_other_type_is_not_inlined (env : Env) (apiKey : string)
    (maxInlineSize : Z) (image : Item) (buffer : Buffer) (ps : list Part) (w w1 : World) :
  truthy apiKey = false ->
  truthy (opt_str (url image)) = true ->
  Attachments.fetchAsBuffer env (url image) w = (Returned buffer, w1) ->
  startsWith (image_mime env image) "image/" = false ->
  Attachments.image_step env apiKey maxInlineSize image (mkBuild ps w)
  = (Returned tt,
     mkBuild (ps ++ [BuilderClaims.too_large_notice env image])%list
       (logged "[ATTACHMENTS] Image exceeds inline limit and no upload path available." w1)).
Proof.
  intros Hkey Hurl Hfetch Hmime.
  unfold Attachments.image_step. rewrite Hurl. cbn [negb].
  unfold try_catch, Attachments.image_try. unfold bind at 1.
  unfold io at 1. cbn [world parts]. rewrite Hfetch.
  fold (image_mime env image).
  unfold Attachments.maybeInlineImage. rewrite Hmime, Hkey. reflexivity.
Qed.

(** A one-pixel picture that Discord calls a generic binary. *)
Definition mislabelled : Item :=
  mkItem (Some "https://cdn.example/dot.png") "dot.png" (JNum (NInt 68))
    "application/octet-stream".

Lemma image_of_other_type_is_not_inlined_witness :
  Attachments.image_step calm "" 4000000 mislabelled (mkBuild [] start)
  = (Returned tt,
     mkBuild [TextPart "Attached image dot.png (application/octet-stream) was too large to inline and could not be uploaded."]
       (logged "[ATTACHMENTS] Image exceeds inline limit and no upload path available."
          (mkWorld 1 [EGet "https://cdn.example/dot.png"] ∅))).
Proof.
  apply (image_of_other_type_is_not_inlined calm "" 4000000 mislabelled [] [] start
           (mkWorld 1 [EGet "https://cdn.example/dot.png"] ∅)); reflexivity.
Defined.

(** Every request is answered with the five bytes of [hello], and bytes
    are decoded one character each, which is what UTF-8 decoding does to
    ASCII. *)
Definition hello : Buffer := [Byte.x68; Byte.x65; Byte.x6c; Byte.x6c; Byte.x6f].

Definition greeting : Env :=
  mkEnv (fun _ _ => inr hello) (fs_fault calm) (random_suffix calm) (random_hex calm)
    (upload_api calm) (os_tmpdir calm) (path_extname calm) (base64 calm)
    string_of_list_byte.

Definition readme : Item :=
  mkItem (Some "https://cdn.example/readme.txt") "readme.txt" JNull "text/plain".

(** What the step logs when there is no key to upload with. *)
Definition upload_skipped (file : Item) (w : World) : World :=
  logged ("[ATTACHMENTS] Gemini API key missing; file upload skipped for "
          ++ file_label file) w.

(** A fetched file without an API key: the descriptor comes first, with
    the size [formatSize] prints for the bytes fetched, the contents follow
    for a small text-like file, and that is all; the upload is skipped
    with a log line that names the file.  Both modules. *)
Theorem file_without_key_is_announced (env : Env) (apiKey : string) (file : Item)
    (buffer : Buffer) (ps : list Part) (w w1 : World) :
  truthy apiKey = false ->
  truthy (opt_str (url file)) = true ->
  Attachments.fetchAsBuffer env (url file) w = (Returned buffer, w1) ->
  Attachments.file_step env apiKey file (mkBuild ps w)
  = (Returned tt,
     mkBuild (ps ++ announced env (file_mime env file) file buffer)%list
       (upload_skipped file w1))
  /\ Fuku.file_step env apiKey file (mkBuild ps w)
     = (Returned tt,
        mkBuild (ps ++ announced env (fuku_file_mime env file) file buffer)%list
          (upload_skipped file w1)).
Proof.
  intros Hkey Hurl Hfetch. split.
  - unfold Attachments.file_step. rewrite Hurl. cbn [negb].
    unfold try_catch, Attachments.file_try. unfold bind at 1.
    unfold io at 1. cbn [world parts]. rewrite Hfetch.
    fold (file_mime env file). fold (file_label file). rewrite Hkey.
    unfold announced, upload_skipped.
    destruct (_ && _); cbn; by rewrite <- ?app_assoc.
  - unfold Fuku.file_step, try_catch, Fuku.file_try. unfold bind at 1.
    unfold io at 1, Fuku.fetchAsBuffer. cbn [world parts]. rewrite Hfetch.
    fold (fuku_file_mime env file). fold (file_label file). rewrite Hkey.
    unfold announced, upload_skipped, Fuku.isTextLikeAttachment,
      Fuku.INLINE_LIMIT_TEXT_BYTES, Attachments.INLINE_LIMIT_TEXT_BYTES.
    destruct (_ && _); cbn; by rewrite <- ?app_assoc.
Qed.

(** A text file of five bytes and a file of another kind, empty. *)
Lemma file_without_key_is_announced_witness :
  Attachments.file_step greeting "" readme (mkBuild [] start)
  = (Returned tt,
     mkBuild [TextPart "Attached file: readme.txt (text/plain, 5 B).";
              TextPart ("Contents of readme.txt (truncated to 1048576 bytes if necessary):"
                        ++ String "010" (String "010" "hello"))]
       (logged "[ATTACHMENTS] Gemini API key missing; file upload skipped for readme.txt"
          (mkWorld 1 [EGet "https://cdn.example/readme.txt"] ∅)))
  /\ Fuku.file_step calm "" notes (mkBuild [] start)
     = (Returned tt,
        mkBuild [TextPart "Attached file: notes.bin (application/x-notes, 0 B)."]
          (logged "[ATTACHMENTS] Gemini API key missing; file upload skipped for notes.bin"
             (mkWorld 1 [EGet "https://cdn.example/notes.bin"] ∅))).
Proof.
  destruct (file_without_key_is_announced greeting "" readme hello [] start
              (mkWorld 1 [EGet "https://cdn.example/readme.txt"] ∅)
              eq_refl eq_refl eq_refl) as [Htext _].
  destruct (file_without_key_is_announced calm "" notes [] [] start
              (mkWorld 1 [EGet "https://cdn.example/notes.bin"] ∅)
              eq_refl eq_refl eq_refl) as [_ Hother].
  split; [rewrite Htext | rewrite Hother]; vm_compute; reflexivity.
Defined.

(** A fetched file with an API key: after the same announcement comes
    what the upload gave, its file reference, or, when the upload threw,
    the notice of the [catch] block; the announcement stays in the list
    either way.  Both modules. *)
Theorem file_with_key_keeps_announcement (env : Env) (apiKey : string) (file : Item)
    (buffer : Buffer) (ps : list Part) (w w1 w2 w3 : World)
    (o o' : Outcome Part) :
  truthy apiKey = true ->
  truthy (opt_str (url file)) = true ->
  Attachments.fetchAsBuffer env (url file) w = (Returned buffer, w1) ->
  Attachments.uploadToGeminiFileAPI env buffer (file_mime env file) (file_label file)
    apiKey w1 = (o, w2) ->
  Fuku.uploadToGeminiFileAPI env buffer (fuku_file_mime env file) (file_label file)
    apiKey w1 = (o', w3) ->
  Attachments.file_step env apiKey file (mkBuild ps w)
  = (Returned tt,
     match o with
     | Returned p =>
         mkBuild (ps ++ announced env (file_mime env file) file buffer ++ [p])%list w2
     | Threw e =>
         mkBuild (ps ++ announced env (file_mime env file) file buffer
                     ++ [file_notice file])%list
           (logged ("[ATTACHMENTS] File handling error: " ++ message e) w2)
     end)
  /\ Fuku.file_step env apiKey file (mkBuild ps w)
     = (Returned tt,
        match o' with
        | Returned p =>
            mkBuild (ps ++ announced env (fuku_file_mime env file) file buffer ++ [p])%list w3
        | Threw e =>
            mkBuild (ps ++ announced env (fuku_file_mime env file) file buffer
                        ++ [file_notice file])%list
              (logged ("[ATTACHMENTS] File handling error: " ++ message e) w3)
        end).
Proof.
  intros Hkey Hurl Hfetch Hup Hup'. split.
  - unfold Attachments.file_step. rewrite Hurl. cbn [negb].
    unfold try_catch, Attachments.file_try. unfold bind at 1.
    unfold io at 1. cbn [world parts]. rewrite Hfetch.
    fold (file_mime env file). fold (file_label file). rewrite Hkey.
    unfold announced.
    destruct (_ && _); unfold bind, parts_push, ret, io; cbn [world parts];
      rewrite Hup; destruct o; finish_step.
  - unfold Fuku.file_step, try_catch, Fuku.file_try. unfold bind at 1.
    unfold io at 1, Fuku.fetchAsBuffer. cbn [world parts]. rewrite Hfetch.
    fold (fuku_file_mime env file). fold (file_label file). rewrite Hkey.
    unfold announced, Fuku.isTextLikeAttachment, Fuku.INLINE_LIMIT_TEXT_BYTES,
      Attachments.INLINE_LIMIT_TEXT_BYTES.
    destruct (_ && _); unfold bind, parts_push, ret, io; cbn [world parts];
      rewrite Hup'; destruct o'; finish_step.
Qed.

(** The text file again, uploaded; and the same with an API that
    refuses. *)
Definition refusing : Env :=
  mkEnv (axios_get greeting) (fs_fault greeting) (random_suffix greeting)
    (random_hex greeting)
    (fun _ _ _ _ => inl (mkError None "quota exceeded"))
    (os_tmpdir greeting) (path_extname greeting) (base64 greeting) (utf8 greeting).

Lemma file_with_key_keeps_announcement_witness :
  parts (Attachments.file_step greeting "key" readme (mkBuild [] start)).2
  = [TextPart "Attached file: readme.txt (text/plain, 5 B).";
     TextPart ("Contents of readme.txt (truncated to 1048576 bytes if necessary):"
               ++ String "010" (String "010" "hello"));
     FileRefPart "files/abc" "text/plain"]
  /\ parts (Fuku.file_step refusing "key" readme (mkBuild [] start)).2
     = [TextPart "Attached file: readme.txt (text/plain, 5 B).";
        TextPart ("Contents of readme.txt (truncated to 1048576 bytes if necessary):"
                  ++ String "010" (String "010" "hello"));
        TextPart "Attached file received but preview unavailable: readme.txt (text/plain)."].
Proof.
  pose (w1 := mkWorld 1 [EGet "https://cdn.example/readme.txt"] ∅).
  destruct (file_with_key_keeps_announcement greeting "key" readme hello [] start w1
              (Attachments.uploadToGeminiFileAPI greeting hello "text/plain"
                 "readme.txt" "key" w1).2
              (Fuku.uploadToGeminiFileAPI greeting hello "text/plain"
                 "readme.txt" "key" w1).2
              (Attachments.uploadToGeminiFileAPI greeting hello "text/plain"
                 "readme.txt" "key" w1).1
              (Fuku.uploadToGeminiFileAPI greeting hello "text/plain"
                 "readme.txt" "key" w1).1) as [Hstep _];
    [reflexivity | reflexivity | reflexivity
    | apply surjective_pairing | apply surjective_pairing |].
  destruct (file_with_key_keeps_announcement refusing "key" readme hello [] start w1
              (Attachments.uploadToGeminiFileAPI refusing hello "text/plain"
                 "readme.txt" "key" w1).2
              (Fuku.uploadToGeminiFileAPI refusing hello "text/plain"
                 "readme.txt" "key" w1).2
              (Attachments.uploadToGeminiFileAPI refusing hello "text/plain"
                 "readme.txt" "key" w1).1
              (Fuku.uploadToGeminiFileAPI refusing hello "text/plain"
                 "readme.txt" "key" w1).1) as [_ Hrefused];
    [reflexivity | reflexivity | reflexivity
    | apply surjective_pairing | apply surjective_pairing |].
  split; [rewrite Hstep | rewrite Hrefused]; vm_compute; reflexivity.
Defined.

End BuilderPaths.

(** * What the builder does to the outside *)

Module BuilderEffects.
Import Js Node.
Local Open Scope list_scope.

(** Requests, timers and log lines: the events that leave the disk and
    the upload API alone. *)
Definition is_quiet (e : Event) : bool :=
  match e with
  | EGet _ | EWait _ | EWarn _ => true
  | _ => false
  end.

(** From [w] to [w'] the files are the same and only quiet events were
    added. *)
Definition quietly (w w' : World) : Prop :=
  fsys w' = fsys w
  /\ exists evs, trace w' = trace w ++ evs /\ forallb is_quiet evs = true.

Lemma quietly_refl w : quietly w w.
Proof. split; [done|]. exists []. by rewrite app_nil_r. Qed.

Lemma quietly_trans w1 w2 w3 : quietly w1 w2 -> quietly w2 w3 -> quietly w1 w3.
Proof.
  intros [Hf1 (e1 & Ht1 & Hq1)] [Hf2 (e2 & Ht2 & Hq2)].
  split; [congruence|]. exists (e1 ++ e2).
  split; [by rewrite Ht2, Ht1, app_assoc|].
  rewrite forallb_app. by rewrite Hq1, Hq2.
Qed.

(** Code over a state that holds a world, every run of which is quiet. *)
Definition quiet {S A} (proj : S -> World) (m : M S A) : Prop :=
  forall s o s', m s = (o, s') -> quietly (proj s) (proj s').

Section Closure.
Context {S : Type} (proj : S -> World).

Lemma quiet_ret {A} (a : A) : quiet proj (ret a).
Proof. intros s o s' [= <- <-]. apply quietly_refl. Qed.

Lemma quiet_throw {A} (e : JsError) : quiet proj (@throw S A e).
Proof. intros s o s' [= <- <-]. apply quietly_refl. Qed.

Lemma quiet_bind {A B} (m : M S A) (k : A -> M S B) :
  quiet proj m -> (forall a, quiet proj (k a)) -> quiet proj (bind m k).
Proof.
  intros Hm Hk s o s'. unfold bind.
  destruct (m s) as [[a|e] s1] eqn:H1.
  - intros H2. eapply quietly_trans; [by eapply Hm | by eapply Hk].
  - intros [= <- <-]. by eapply Hm.
Qed.

Lemma quiet_try_catch {A} (body : M S A) (handler : JsError -> M S A) :
  quiet proj body -> (forall e, quiet proj (handler e)) ->
  quiet proj (try_catch body handler).
Proof.
  intros Hb Hh s o s'. unfold try_catch.
  destruct (body s) as [[a|e] s1] eqn:H1.
  - intros [= <- <-]. by eapply Hb.
  - intros H2. eapply quietly_trans; [by eapply Hb | by eapply Hh].
Qed.

Lemma quiet_for_of {A} (items : list A) (body : A -> M S unit) :
  (forall x, quiet proj (body x)) -> quiet proj (for_of items body).
Proof.
  intros Hb. induction items as [|x items IH]; cbn [for_of].
  - apply quiet_ret.
  - apply quiet_bind; [apply Hb | intros _; apply IH].
Qed.

End Closure.

Lemma quiet_emit (e : Event) : is_quiet e = true -> quiet id (emit e).
Proof.
  intros He w o w' [= <- <-]. split; [done|]. exists [e]. cbn. by rewrite He.
Qed.

Lemma quiet_next_tick : quiet id next_tick.
Proof. intros w o w' [= <- <-]. split; [done|]. exists []. cbn. by rewrite app_nil_r. Qed.

Lemma quiet_http_get env url : quiet id (http_get env url).
Proof.
  unfold http_get. destruct url as [u|]; [|apply quiet_throw].
  apply quiet_bind; [apply quiet_next_tick|]. intros t.
  apply quiet_bind; [by apply quiet_emit|]. intros _.
  destruct (axios_get env t u); [apply quiet_throw | apply quiet_ret].
Qed.

Lemma quiet_fetch env url attempts lastError :
  quiet id (Attachments.fetch_attempts env url attempts lastError).
Proof.
  revert lastError. induction attempts as [|attempt rest IH]; intros lastError;
    cbn [Attachments.fetch_attempts]; [apply quiet_throw|].
  apply quiet_bind.
  - apply quiet_try_catch.
    + apply quiet_bind; [apply quiet_http_get | intros b; apply quiet_ret].
    + intros e. apply quiet_bind; [|intros _; apply quiet_ret].
      destruct (_ <? _); [by apply quiet_emit | apply quiet_ret].
  - intros [b|e]; [apply quiet_ret | apply IH].
Qed.

Lemma quiet_io {A} (m : M World A) : quiet id m -> quiet world (io m).
Proof.
  intros Hm s o s'. unfold io. destruct (m (world s)) as [o1 w1] eqn:H1.
  intros [= <- <-]. cbn. by apply (Hm _ _ _ H1).
Qed.

Lemma quiet_push p : quiet world (parts_push p).
Proof. intros s o s' [= <- <-]. apply quietly_refl. Qed.

Lemma quiet_get_parts : quiet world get_parts.
Proof. intros s o s' [= <- <-]. apply quietly_refl. Qed.

Lemma quiet_warn msg : quiet world (io (console_warn msg)).
Proof. apply quiet_io. by apply quiet_emit. Qed.

Lemma quiet_upload_without_key env handle buffer mimeType name apiKey :
  truthy apiKey = false ->
  quiet id (Attachments.upload_with env handle buffer mimeType name apiKey).
Proof. intros Hkey. unfold Attachments.upload_with. rewrite Hkey. apply quiet_throw. Qed.

Ltac quiet_tac :=
  repeat first
    [ apply quiet_ret | apply quiet_throw | apply quiet_push | apply quiet_get_parts
    | apply quiet_warn
    | apply quiet_io, quiet_fetch
    | apply quiet_io, quiet_upload_without_key; assumption
    | apply quiet_bind; [|intros ?]
    | apply quiet_try_catch; [|intros ?]
    | apply quiet_for_of; intros ?
    | match goal with
      | |- quiet _ (match ?x with _ => _ end) => destruct x
      end ].

Lemma quiet_build_body env (input : Attachments.BuildInput) :
  truthy (Attachments.in_apiKey input) = false ->
  quiet world (Attachments.build_body env input).
Proof.
  intros Hkey.
  unfold Attachments.build_body, Attachments.image_step, Attachments.file_step,
    Attachments.image_try, Attachments.file_try,
    Attachments.image_catch, Attachments.file_catch,
    Attachments.uploadToGeminiFileAPI, Attachments.fetchAsBuffer.
  rewrite Hkey. cbn [negb]. quiet_tac.
Qed.

Lemma quiet_fuku_build_body env (input : Fuku.BuildInput) :
  truthy (Fuku.in_apiKey input) = false ->
  quiet world (Fuku.build_body env input).
Proof.
  intros Hkey.
  unfold Fuku.build_body, Fuku.image_step, Fuku.file_step,
    Fuku.image_try, Fuku.file_try, Fuku.image_catch, Fuku.file_catch,
    Attachments.image_catch, Attachments.file_catch,
    Fuku.uploadToGeminiFileAPI, Fuku.fetchAsBuffer, Attachments.fetchAsBuffer.
  rewrite Hkey. quiet_tac.
Qed.

(** Without an API key neither builder touches the disk or the upload
    API: whatever the attachments, the files are as they were and the only
    events are requests, timers and log lines. *)
Theorem build_without_key_stays_off_disk env (input : Attachments.BuildInput)
    (finput : Fuku.BuildInput) (w : World) :
  truthy (Attachments.in_apiKey input) = false ->
  truthy (Fuku.in_apiKey finput) = false ->
  quietly w (Attachments.buildGeminiParts env input w).2
  /\ quietly w (Fuku.buildGeminiParts env finput w).2.
Proof.
  intros Hkey Hfkey. split.
  - unfold Attachments.buildGeminiParts, run_build.
    destruct (Attachments.build_body env input (mkBuild [] w)) as [o s] eqn:Hrun.
    apply (quiet_build_body env input Hkey) in Hrun. exact Hrun.
  - unfold Fuku.buildGeminiParts, run_build.
    destruct (Fuku.build_body env finput (mkBuild [] w)) as [o s] eqn:Hrun.
    apply (quiet_fuku_build_body env finput Hfkey) in Hrun. exact Hrun.
Qed.

Lemma build_without_key_stays_off_disk_witness :
  quietly Scenarios.start
    (Attachments.buildGeminiParts Scenarios.calm
       (Attachments.mkInput (JStr "look") [Scenarios.big] [Scenarios.notes] "" None)
       Scenarios.start).2
  /\ quietly Scenarios.start
       (Fuku.buildGeminiParts Scenarios.calm
          (Fuku.mkInput (JStr "look") [Scenarios.big] [Scenarios.notes] "")
          Scenarios.start).2.
Proof.
  apply (build_without_key_stays_off_disk Scenarios.calm
           (Attachments.mkInput (JStr "look") [Scenarios.big] [Scenarios.notes] "" None)
           (Fuku.mkInput (JStr "look") [Scenarios.big] [Scenarios.notes] ""));
    reflexivity.
Defined.

(** ** Counting requests *)

Definition is_get (e : Event) : bool :=
  match e with EGet _ => true | _ => false end.

(** The number of requests among some events. *)
Definition requests (evs : list Event) : nat :=
  length (filter (fun e => is_get e = true) evs).

Lemma requests_app a b : requests (a ++ b) = (requests a + requests b)%nat.
Proof. unfold requests. by rewrite filter_app, length_app. Qed.

(** From [w] to [w'] at most [n] requests were made. *)
Definition within (n : nat) (w w' : World) : Prop :=
  exists evs, trace w' = trace w ++ evs /\ (requests evs <= n)%nat.

Lemma within_refl w : within 0 w w.
Proof. exists []. by rewrite app_nil_r. Qed.

Lemma within_trans n1 n2 w1 w2 w3 :
  within n1 w1 w2 -> within n2 w2 w3 -> within (n1 + n2) w1 w3.
Proof.
  intros (e1 & Ht1 & Hq1) (e2 & Ht2 & Hq2). exists (e1 ++ e2).
  split; [by rewrite Ht2, Ht1, app_assoc|]. rewrite requests_app. lia.
Qed.

Lemma within_weaken n n' w w' : (n <= n')%nat -> within n w w' -> within n' w w'.
Proof. intros Hle (e & Ht & Hq). exists e. split; [done | lia]. Qed.

Definition bounded {S A} (n : nat) (proj : S -> World) (m : M S A) : Prop :=
  forall s o s', m s = (o, s') -> within n (proj s) (proj s').

Section Counting.
Context {S : Type} (proj : S -> World).

Lemma bounded_weaken {A} n n' (m : M S A) :
  (n <= n')%nat -> bounded n proj m -> bounded n' proj m.
Proof. intros Hle Hm s o s' Hrun. eapply within_weaken; [done | by eapply Hm]. Qed.

Lemma bounded_ret {A} (a : A) : bounded 0 proj (ret a).
Proof. intros s o s' [= <- <-]. apply within_refl. Qed.

Lemma bounded_throw {A} (e : JsError) : bounded 0 proj (@throw S A e).
Proof. intros s o s' [= <- <-]. apply within_refl. Qed.

Lemma bounded_bind {A B} n n' (m : M S A) (k : A -> M S B) :
  bounded n proj m -> (forall a, bounded n' proj (k a)) ->
  bounded (n + n') proj (bind m k).
Proof.
  intros Hm Hk s o s'. unfold bind.
  destruct (m s) as [[a|e] s1] eqn:H1.
  - intros H2. eapply within_trans; [by eapply Hm | by eapply Hk].
  - intros [= <- <-]. eapply within_weaken; [|by eapply Hm]. lia.
Qed.

Lemma bounded_try_catch {A} n n' (body : M S A) (handler : JsError -> M S A) :
  bounded n proj body -> (forall e, bounded n' proj (handler e)) ->
  bounded (n + n') proj (try_catch body handler).
Proof.
  intros Hb Hh s o s'. unfold try_catch.
  destruct (body s) as [[a|e] s1] eqn:H1.
  - intros [= <- <-]. eapply within_weaken; [|by eapply Hb]. lia.
  - intros H2. eapply within_trans; [by eapply Hb | by eapply Hh].
Qed.

Lemma bounded_try_finally {A} n n' (body : M S A) (fin : M S unit) :
  bounded n proj body -> bounded n' proj fin ->
  bounded (n + n') proj (try_finally body fin).
Proof.
  intros Hb Hf s o s'. unfold try_finally.
  destruct (body s) as [o1 s1] eqn:H1. destruct (fin s1) as [[[]|e] s2] eqn:H2;
    intros [= <- <-]; (eapply within_trans; [by eapply Hb | by eapply Hf]).
Qed.

Lemma bounded_for_of {A} n (items : list A) (body : A -> M S unit) :
  (forall x, bounded n proj (body x)) ->
  bounded (length items * n) proj (for_of items body).
Proof.
  intros Hb. induction items as [|x items IH]; cbn [for_of length Nat.mul].
  - apply bounded_ret.
  - apply bounded_bind; [apply Hb | intros _; apply IH].
Qed.

Lemma silent_bind {A B} (m : M S A) (k : A -> M S B) :
  bounded 0 proj m -> (forall a, bounded 0 proj (k a)) -> bounded 0 proj (bind m k).
Proof. intros Hm Hk. by apply (bounded_bind 0 0). Qed.

Lemma silent_try_catch {A} (body : M S A) (handler : JsError -> M S A) :
  bounded 0 proj body -> (forall e, bounded 0 proj (handler e)) ->
  bounded 0 proj (try_catch body handler).
Proof. intros Hb Hh. by apply (bounded_try_catch 0 0). Qed.

Lemma silent_try_finally {A} (body : M S A) (fin : M S unit) :
  bounded 0 proj body -> bounded 0 proj fin -> bounded 0 proj (try_finally body fin).
Proof. intros Hb Hf. by apply (bounded_try_finally 0 0). Qed.

End Counting.

Lemma silent_emit (e : Event) : is_get e = false -> bounded 0 id (emit e).
Proof.
  intros He w o w' [= <- <-]. exists [e]. split; [done|].
  unfold requests. rewrite filter_cons_False by (rewrite He; done). done.
Qed.

Lemma silent_next_tick : bounded 0 id next_tick.
Proof. intros w o w' [= <- <-]. exists []. cbn. by rewrite app_nil_r. Qed.

Lemma silent_get_fsys : bounded 0 id get_fsys.
Proof. intros w o w' [= <- <-]. apply within_refl. Qed.

Lemma silent_set_fsys f : bounded 0 id (set_fsys f).
Proof. intros w o w' [= <- <-]. exists []. cbn. by rewrite app_nil_r. Qed.

Ltac silent_tac :=
  repeat first
    [ apply bounded_ret | apply bounded_throw
    | apply silent_next_tick | apply silent_get_fsys | apply silent_set_fsys
    | apply silent_emit; reflexivity
    | apply silent_bind; [|intros ?]
    | apply silent_try_catch; [|intros ?]
    | apply silent_try_finally
    | match goal with
      | |- bounded 0 _ (match ?x with _ => _ end) => destruct x
      end ].

(** An upload makes no request of the kind [fetchAsBuffer] makes. *)
Lemma silent_upload env handle buffer mimeType name apiKey :
  bounded 0 id (Attachments.upload_with env handle buffer mimeType name apiKey).
Proof.
  unfold Attachments.upload_with, fs_mkdtemp, Attachments.generateTempFilePath,
    crypto_randomHex, fs_writeFile, Attachments.upload_request, manager_uploadFile,
    Attachments.upload_cleanup, fs_unlink, fs_rm, console_warn.
  silent_tac.
Qed.

Lemma one_http_get env url : bounded 1 id (http_get env url).
Proof.
  unfold http_get. destruct url as [u|];
    [|apply (bounded_weaken id 0); [lia | apply bounded_throw]].
  intros w o w'. unfold bind, next_tick, emit, ret, throw. cbn.
  destruct (axios_get env (tick w) u); intros [= <- <-];
    exists [EGet u]; cbn; split; done.
Qed.

Lemma fetch_attempts_bounded env url attempts lastError :
  bounded (length attempts) id (Attachments.fetch_attempts env url attempts lastError).
Proof.
  revert lastError. induction attempts as [|attempt rest IH]; intros lastError;
    cbn [Attachments.fetch_attempts length]; [apply bounded_throw|].
  apply (bounded_bind id 1 (length rest)).
  - apply (bounded_try_catch id 1 0).
    + apply (bounded_bind id 1 0); [apply one_http_get | intros b; apply bounded_ret].
    + intros e. unfold wait. silent_tac.
  - intros [b|e]; [|apply IH].
    apply (bounded_weaken id 0); [lia | apply bounded_ret].
Qed.

Lemma fetchAsBuffer_bounded env url : bounded 3 id (Attachments.fetchAsBuffer env url).
Proof. apply (fetch_attempts_bounded env url [1; 2; 3]%Z). Qed.

Lemma bounded_io {A} n (m : M World A) : bounded n id m -> bounded n world (io m).
Proof.
  intros Hm s o s'. unfold io. destruct (m (world s)) as [o1 w1] eqn:H1.
  intros [= <- <-]. cbn. by apply (Hm _ _ _ H1).
Qed.

Lemma silent_push p : bounded 0 world (parts_push p).
Proof. intros s o s' [= <- <-]. apply within_refl. Qed.

Lemma silent_get_parts : bounded 0 world get_parts.
Proof. intros s o s' [= <- <-]. apply within_refl. Qed.

Lemma silent_warn msg : bounded 0 world (io (console_warn msg)).
Proof. apply bounded_io. by apply silent_emit. Qed.

Ltac silent_build_tac :=
  repeat first
    [ apply bounded_ret | apply bounded_throw | apply silent_push | apply silent_get_parts
    | apply silent_warn
    | apply bounded_io, silent_upload
    | apply silent_bind; [|intros ?]
    | match goal with
      | |- bounded 0 _ (match ?x with _ => _ end) => destruct x
      end ].

(** A [try] block that fetches once and then makes no request. *)
Lemma fetch_then_silent env url (rest : Buffer -> M Build unit) :
  (forall b, bounded 0 world (rest b)) ->
  bounded 3 world (bind (io (Attachments.fetchAsBuffer env url)) rest).
Proof.
  intros Hrest. apply (bounded_bind world 3 0); [|exact Hrest].
  apply bounded_io, fetchAsBuffer_bounded.
Qed.

Lemma step_bounded (body : M Build unit) (handler : JsError -> M Build unit) :
  bounded 3 world body -> (forall e, bounded 0 world (handler e)) ->
  bounded 3 world (try_catch body handler).
Proof. intros Hb Hh. by apply (bounded_try_catch world 3 0). Qed.

Lemma image_step_bounded env apiKey maxInlineSize image :
  bounded 3 world (Attachments.image_step env apiKey maxInlineSize image).
Proof.
  unfold Attachments.image_step. destruct (negb _).
  - apply (bounded_weaken world 0); [lia | apply bounded_ret].
  - apply step_bounded.
    + unfold Attachments.image_try, Attachments.uploadToGeminiFileAPI.
      apply fetch_then_silent. intros b. silent_build_tac.
    + intros e. unfold Attachments.image_catch. silent_build_tac.
Qed.

Lemma file_step_bounded env apiKey file :
  bounded 3 world (Attachments.file_step env apiKey file).
Proof.
  unfold Attachments.file_step. destruct (negb _).
  - apply (bounded_weaken world 0); [lia | apply bounded_ret].
  - apply step_bounded.
    + unfold Attachments.file_try, Attachments.uploadToGeminiFileAPI.
      apply fetch_then_silent. intros b. silent_build_tac.
    + intros e. unfold Attachments.file_catch. silent_build_tac.
Qed.

Lemma fuku_image_step_bounded env apiKey image :
  bounded 3 world (Fuku.image_step env apiKey image).
Proof.
  apply step_bounded.
  - unfold Fuku.image_try, Fuku.uploadToGeminiFileAPI, Fuku.fetchAsBuffer.
    apply fetch_then_silent. intros b. silent_build_tac.
  - intros e. unfold Fuku.image_catch, Attachments.image_catch. silent_build_tac.
Qed.

Lemma fuku_file_step_bounded env apiKey file :
  bounded 3 world (Fuku.file_step env apiKey file).
Proof.
  apply step_bounded.
  - unfold Fuku.file_try, Fuku.uploadToGeminiFileAPI, Fuku.fetchAsBuffer.
    apply fetch_then_silent. intros b. silent_build_tac.
  - intros e. unfold Fuku.file_catch, Attachments.file_catch. silent_build_tac.
Qed.

(** Neither builder asks for an attachment more than three times: the
    requests of a whole build number at most three per image and file,
    whether the attachments are inlined, uploaded or given up. *)
Theorem build_makes_at_most_three_requests_each env (input : Attachments.BuildInput)
    (finput : Fuku.BuildInput) (w : World) :
  within (3 * (length (Attachments.in_images input) + length (Attachments.in_files input)))
    w (Attachments.buildGeminiParts env input w).2
  /\ within (3 * (length (Fuku.in_images finput) + length (Fuku.in_files finput)))
       w (Fuku.buildGeminiParts env finput w).2.
Proof.
  split.
  - unfold Attachments.buildGeminiParts, run_build.
    destruct (Attachments.build_body env input (mkBuild [] w)) as [o s] eqn:Hrun.
    cbn [snd]. revert Hrun.
    assert (Hb : bounded (0 + (0 + (length (Attachments.in_images input) * 3
                                    + (length (Attachments.in_files input) * 3 + 0))))
                   world (Attachments.build_body env input)).
    { unfold Attachments.build_body.
      apply bounded_bind; [apply silent_push | intros _].
      apply bounded_bind; [silent_build_tac | intros _].
      apply bounded_bind; [apply bounded_for_of; intros; apply image_step_bounded | intros _].
      apply bounded_bind; [apply bounded_for_of; intros; apply file_step_bounded | intros _].
      silent_build_tac. }
    intros Hrun. apply Hb in Hrun. cbn [world] in Hrun.
    eapply within_weaken; [|exact Hrun]. lia.
  - unfold Fuku.buildGeminiParts, run_build.
    destruct (Fuku.build_body env finput (mkBuild [] w)) as [o s] eqn:Hrun.
    cbn [snd]. revert Hrun.
    assert (Hb : bounded (0 + (length (Fuku.in_images finput) * 3
                               + (length (Fuku.in_files finput) * 3 + 0)))
                   world (Fuku.build_body env finput)).
    { unfold Fuku.build_body.
      apply bounded_bind; [silent_build_tac | intros _].
      apply bounded_bind; [apply bounded_for_of; intros; apply fuku_image_step_bounded | intros _].
      apply bounded_bind; [apply bounded_for_of; intros; apply fuku_file_step_bounded | intros _].
      silent_build_tac. }
    intros Hrun. apply Hb in Hrun. cbn [world] in Hrun.
    eapply within_weaken; [|exact Hrun]. lia.
Qed.

End BuilderEffects.

(** * How many parts a build returns *)

Module BuilderCounts.
Import Js Node BuilderFacts.
Local Open Scope list_scope.

(** [image?.url] is truthy. *)
Definition has_url (item : Item) : bool := truthy (opt_str (url item)).

Definition with_url (items : list Item) : nat :=
  length (filter (fun item => has_url item = true) items).

Lemma contributions_count (step : Item -> M Build unit) (lo hi : nat)
    (items : list Item) (w : World) :
  (forall x w, has_url x = true ->
     (lo <= length (contribution (step x) w).1 <= hi)%nat) ->
  (forall x w, has_url x = false -> contribution (step x) w = ([], w)) ->
  (lo * with_url items <= length (contributions step items w).1 <= hi * with_url items)%nat.
Proof.
  intros Hyes Hno. unfold with_url. revert w.
  induction items as [|x items IH]; intros w; [cbn; lia|].
  cbn [contributions]. rewrite filter_cons.
  destruct (has_url x) eqn:Hx.
  - specialize (Hyes x w Hx). destruct (contribution (step x) w) as [d w1].
    specialize (IH w1). destruct (contributions step items w1) as [ds w2].
    cbn [fst] in *. rewrite length_app. case_decide; [|done]. cbn [length]. lia.
  - rewrite (Hno x w Hx). specialize (IH w).
    destruct (contributions step items w) as [ds w2].
    cbn [fst app] in *. case_decide; [done|]. exact IH.
Qed.

Lemma contributions_count_all (step : Item -> M Build unit) (lo hi : nat)
    (items : list Item) (w : World) :
  (forall x w, (lo <= length (contribution (step x) w).1 <= hi)%nat) ->
  (lo * length items <= length (contributions step items w).1 <= hi * length items)%nat.
Proof.
  intros Hall. revert w. induction items as [|x items IH]; intros w; [cbn; lia|].
  cbn [contributions]. specialize (Hall x w).
  destruct (contribution (step x) w) as [d w1].
  specialize (IH w1). destruct (contributions step items w1) as [ds w2].
  cbn [fst] in *. rewrite length_app. cbn [length]. lia.
Qed.

(** Runs a loop body through all its branches. *)
Ltac branches :=
  repeat (cbv beta; cbn [world parts fst snd negb app length];
          match goal with
          | |- context [match ?x with _ => _ end] =>
              lazymatch x with
              | context [match _ with _ => _ end] => fail
              | _ => destruct x
              end
          end);
  cbv beta; cbn [world parts fst snd negb app length].

Lemma image_try_count env apiKey maxInlineSize image w :
  match Attachments.image_try env apiKey maxInlineSize image (mkBuild [] w) with
  | (Returned _, s) => length (parts s) = 1%nat
  | (Threw _, s) => length (parts s) = 0%nat
  end.
Proof.
  unfold Attachments.image_try, bind, io, parts_push, ret. branches; reflexivity.
Qed.

Lemma catch_adds_one (body : M Build unit) (handler : JsError -> M Build unit)
    (lo hi : nat) (w : World) :
  match body (mkBuild [] w) with
  | (Returned _, s) => (1 <= length (parts s) <= hi)%nat
  | (Threw _, s) => (lo <= length (parts s) /\ length (parts s) + 1 <= hi)%nat
  end ->
  (forall e s, exists msg p,
     handler e s = (Returned tt, mkBuild (parts s ++ [p]) (logged msg (world s)))) ->
  (1 <= length (contribution (try_catch body handler) w).1 <= hi)%nat.
Proof.
  intros Hbody Hhandler. unfold contribution, try_catch.
  destruct (body (mkBuild [] w)) as [[[]|e] s]; [done|].
  destruct (Hhandler e s) as (msg & p & ->). cbn [parts fst].
  rewrite length_app. cbn [length]. lia.
Qed.

Lemma image_catch_one image e s :
  exists msg p,
    Attachments.image_catch image e s
    = (Returned tt, mkBuild (parts s ++ [p]) (logged msg (world s))).
Proof.
  unfold Attachments.image_catch, Attachments.file_catch, bind, io, console_warn, emit,
    parts_push, logged.
  cbn [world parts]. do 2 eexists. reflexivity.
Qed.

Lemma file_catch_one file e s :
  exists msg p,
    Attachments.file_catch file e s
    = (Returned tt, mkBuild (parts s ++ [p]) (logged msg (world s))).
Proof.
  unfold Attachments.image_catch, Attachments.file_catch, bind, io, console_warn, emit,
    parts_push, logged.
  cbn [world parts]. do 2 eexists. reflexivity.
Qed.

Lemma file_try_count env apiKey file w :
  match Attachments.file_try env apiKey file (mkBuild [] w) with
  | (Returned _, s) => (1 <= length (parts s) <= 3)%nat
  | (Threw _, s) => (length (parts s) <= 2)%nat
  end.
Proof.
  unfold Attachments.file_try, bind, io, parts_push, ret. branches; lia.
Qed.

Lemma fuku_image_try_count env apiKey image w :
  match Fuku.image_try env apiKey image (mkBuild [] w) with
  | (Returned _, s) => length (parts s) = 1%nat
  | (Threw _, s) => length (parts s) = 0%nat
  end.
Proof.
  unfold Fuku.image_try, bind, io, parts_push, ret. branches; reflexivity.
Qed.

Lemma fuku_file_try_count env apiKey file w :
  match Fuku.file_try env apiKey file (mkBuild [] w) with
  | (Returned _, s) => (1 <= length (parts s) <= 3)%nat
  | (Threw _, s) => (length (parts s) <= 2)%nat
  end.
Proof.
  unfold Fuku.file_try, bind, io, parts_push, ret. branches; lia.
Qed.

Lemma image_step_count env apiKey maxInlineSize image w :
  has_url image = true ->
  (1 <= length (contribution (Attachments.image_step env apiKey maxInlineSize image) w).1
   <= 1)%nat.
Proof.
  intros Hurl. unfold Attachments.image_step. fold (has_url image). rewrite Hurl.
  cbn [negb]. apply (catch_adds_one _ _ 0); [|apply image_catch_one].
  pose proof (image_try_count env apiKey maxInlineSize image w) as H.
  destruct (Attachments.image_try _ _ _ _ _) as [[[]|e] s]; lia.
Qed.

Lemma file_step_count env apiKey file w :
  has_url file = true ->
  (1 <= length (contribution (Attachments.file_step env apiKey file) w).1 <= 3)%nat.
Proof.
  intros Hurl. unfold Attachments.file_step. fold (has_url file). rewrite Hurl.
  cbn [negb]. apply (catch_adds_one _ _ 0); [|apply file_catch_one].
  pose proof (file_try_count env apiKey file w) as H.
  destruct (Attachments.file_try _ _ _ _) as [[[]|e] s]; lia.
Qed.

Lemma image_step_skips env apiKey maxInlineSize image w :
  has_url image = false ->
  contribution (Attachments.image_step env apiKey maxInlineSize image) w = ([], w).
Proof.
  intros Hurl. unfold Attachments.image_step. fold (has_url image). by rewrite Hurl.
Qed.

Lemma file_step_skips env apiKey file w :
  has_url file = false ->
  contribution (Attachments.file_step env apiKey file) w = ([], w).
Proof.
  intros Hurl. unfold Attachments.file_step. fold (has_url file). by rewrite Hurl.
Qed.

Lemma fuku_image_step_count env apiKey image w :
  (1 <= length (contribution (Fuku.image_step env apiKey image) w).1 <= 1)%nat.
Proof.
  unfold Fuku.image_step. apply (catch_adds_one _ _ 0); [|apply image_catch_one].
  pose proof (fuku_image_try_count env apiKey image w) as H.
  destruct (Fuku.image_try _ _ _ _) as [[[]|e] s]; lia.
Qed.

Lemma fuku_file_step_count env apiKey file w :
  (1 <= length (contribution (Fuku.file_step env apiKey file) w).1 <= 3)%nat.
Proof.
  unfold Fuku.file_step. apply (catch_adds_one _ _ 0); [|apply file_catch_one].
  pose proof (fuku_file_try_count env apiKey file w) as H.
  destruct (Fuku.file_try _ _ _ _) as [[[]|e] s]; lia.
Qed.

(** How long the returned list is.  In the module with the classifier an
    attachment without a URL adds nothing, an image with one adds exactly
    one part and a file with one adds one to three, after the text part
    that is always there.  In [bots/Fuku/utils/attachments.js] every
    image adds exactly one part and every file one to three, a missing
    URL ending in the notice of the [catch] block, and the text part is
    there or not. *)
Theorem build_part_count (env : Env) (input : Attachments.BuildInput)
    (finput : Fuku.BuildInput) (w : World) :
  (exists ps w',
     Attachments.buildGeminiParts env input w = (Returned ps, w')
     /\ (1 + with_url (Attachments.in_images input) + with_url (Attachments.in_files input)
         <= length ps
         <= 1 + with_url (Attachments.in_images input)
            + 3 * with_url (Attachments.in_files input))%nat)
  /\ (exists ps w',
        Fuku.buildGeminiParts env finput w = (Returned ps, w')
        /\ (1 <= length ps)%nat
        /\ (length (Fuku.in_images finput) + length (Fuku.in_files finput)
            <= length ps
            <= 1 + length (Fuku.in_images finput) + 3 * length (Fuku.in_files finput))%nat).
Proof.
  split.
  - eexists _, _. split; [apply build_parts_eq|].
    cbn [length]. rewrite length_app. unfold file_parts, image_parts.
    pose proof (contributions_count
                  (Attachments.image_step env (Attachments.in_apiKey input)
                     (default 4000000 (Attachments.in_maxInlineSize input)))
                  1 1 (Attachments.in_images input)
                  (warn_no_key (Attachments.in_apiKey input) w)
                  (fun x w => image_step_count env _ _ x w)
                  (fun x w => image_step_skips env _ _ x w)) as Hi.
    destruct (contributions _ (Attachments.in_images input) _) as [di wi].
    pose proof (contributions_count
                  (Attachments.file_step env (Attachments.in_apiKey input))
                  1 3 (Attachments.in_files input) wi
                  (fun x w => file_step_count env _ x w)
                  (fun x w => file_step_skips env _ x w)) as Hf.
    cbn [fst snd] in *. lia.
  - eexists _, _. split; [apply fuku_build_parts_eq|].
    unfold fuku_file_parts, fuku_image_parts.
    pose proof (contributions_count_all
                  (Fuku.image_step env (Fuku.in_apiKey finput))
                  1 1 (Fuku.in_images finput) w
                  (fun x w => fuku_image_step_count env _ x w)) as Hi.
    destruct (contributions _ (Fuku.in_images finput) _) as [di wi].
    pose proof (contributions_count_all
                  (Fuku.file_step env (Fuku.in_apiKey finput))
                  1 3 (Fuku.in_files finput) wi
                  (fun x w => fuku_file_step_count env _ x w)) as Hf.
    cbn [fst snd] in *.
    assert (Hopen : (length (fuku_opening finput) <= 1)%nat).
    { unfold fuku_opening. by destruct (Fuku.trim_nonempty _); cbn; lia. }
    assert (Hmax : forall l : list Part,
              (1 <= length (or_empty_text l) /\ length l <= length (or_empty_text l)
               /\ length (or_empty_text l) <= Nat.max 1 (length l))%nat).
    { intros [|p l]; cbn; lia. }
    specialize (Hmax (fuku_opening finput ++ di
                      ++ (contributions (Fuku.file_step env (Fuku.in_apiKey finput))
                            (Fuku.in_files finput) wi).1)).
    rewrite !length_app in Hmax. lia.
Qed.

End BuilderCounts.

(** * Laws of the history store *)

Module StoreLaws.
Import Js Store SqlFacts CountFacts StoreFacts.
Local Open Scope list_scope.

(** ** Keys of the in-memory backend *)

Fixpoint bar_free (s : string) : bool :=
  match s with
  | EmptyString => true
  | String c r => negb (Ascii.eqb c "|") && bar_free r
  end.

(** Ids that [getMemoryKey] keeps apart: no bar in the user or guild id,
    and no guild or channel id that is the empty text. *)
Definition not_empty_text (v : option string) : bool :=
  match v with
  | Some EmptyString => false
  | _ => true
  end.

Definition plain (k : Key) : bool :=
  bar_free (userId k) && bar_free (default "" (guildId k))
  && not_empty_text (guildId k) && not_empty_text (channelId k).

Lemma split_bar (a a' b b' : string) :
  bar_free a = true -> bar_free a' = true ->
  (a ++ String "|" b)%string = (a' ++ String "|" b')%string -> a = a' /\ b = b'.
Proof.
  revert a'. induction a as [|x a IH]; intros [|x' a'] Ha Ha';
    rewrite ?StringFacts.append_nil, ?StringFacts.append_cons; intros Heq.
  - by injection Heq as ->.
  - injection Heq as <- _. cbn in Ha'. done.
  - injection Heq as -> _. cbn in Ha. done.
  - injection Heq as -> Heq. cbn [bar_free] in Ha, Ha'.
    apply andb_true_iff in Ha as [_ Ha], Ha' as [_ Ha'].
    destruct (IH a' Ha Ha' Heq) as [-> ->]. done.
Qed.

Lemma default_text_inj (v v' : option string) :
  not_empty_text v = true -> not_empty_text v' = true ->
  default "" v = default "" v' -> v = v'.
Proof.
  destruct v as [[|x s]|], v' as [[|x' s']|]; cbn; intros; congruence.
Qed.

Lemma plain_key_inj (k k' : Key) :
  plain k = true -> plain k' = true ->
  getMemoryKey (userId k) (guildId k) (channelId k)
  = getMemoryKey (userId k') (guildId k') (channelId k') ->
  k = k'.
Proof.
  unfold plain, getMemoryKey. rewrite !andb_true_iff.
  intros [[[Hu Hg] Hge] Hce] [[[Hu' Hg'] Hge'] Hce'].
  rewrite !StringFacts.append_cons, !StringFacts.append_nil.
  intros [Hue Hrest]%split_bar; [|done..].
  apply split_bar in Hrest as [Hgd Hcd]; [|done..].
  apply default_text_inj in Hgd, Hcd; [|done..].
  destruct k, k'. cbn in *. congruence.
Qed.

(** ** One key and the others *)


Lemma clear_backend (k : Key) (st : State) :
  useMemoryStore (clearHistory k st) = useMemoryStore st.
Proof. unfold clearHistory. by destruct (useMemoryStore st). Qed.


Lemma clear_history_other (k k' : Key) (st : State) :
  getMemoryKey (userId k) (guildId k) (channelId k)
  <> getMemoryKey (userId k') (guildId k') (channelId k') ->
  history k' (clearHistory k st) = history k' st.
Proof.
  intros Hne. unfold history. rewrite clear_backend. unfold clearHistory, normalizeId.
  destruct (useMemoryStore st); cbn [negb memoryStore messages].
  - by rewrite lookup_delete_ne.
  - do 2 f_equal. unfold select_key_desc, clearStmt. f_equal.
    rewrite list_filter_filter. apply filter_ext_in.
    intros r _. split; [by intros [? _]|]. intros Hk'. split; [done|].
    destruct (where_key (userId k) (guildId k) (channelId k) r) eqn:Hk; [|done].
    apply where_key_spec in Hk as (? & ? & ?), Hk' as (? & ? & ?).
    exfalso. apply Hne. congruence.
Qed.

Section Laws.
Variable HISTORY_LIMIT : option string.

Lemma push_history_other (k k' : Key) rl ct keep now st :
  (useMemoryStore st = false -> NoDup (rowid <$> messages st)) ->
  getMemoryKey (userId k) (guildId k) (channelId k)
  <> getMemoryKey (userId k') (guildId k') (channelId k') ->
  history k' (pushMessage HISTORY_LIMIT k rl ct keep now st) = history k' st.
Proof.
  intros Hnd Hne. destruct (useMemoryStore st) eqn:Hmem.
  - unfold history. rewrite push_backend, Hmem.
    unfold pushMessage, normalizeId. rewrite Hmem. cbn [negb memoryStore].
    rewrite lookup_insert_ne by done.
    destruct (memoryStore st !! _); [done|]. by rewrite lookup_insert_ne.
  - apply push_other_key; [done | by apply Hnd |]. intros Heq. apply Hne. congruence.
Qed.


Lemma slice_last_length (n : Z) (l : list Entry) :
  0 < n -> Z.of_nat (length (slice_last n l)) <= n.
Proof. intros Hn. unfold slice_last. rewrite length_drop. lia. Qed.


(** [clearHistory] under one key leaves what [getLastMessages] returns
    under every key with another [getMemoryKey] as it was, in either
    backend. *)
Theorem clear_leaves_other_conversations (k k' : Key) (limit : JsVal) (st : State) :
  getMemoryKey (userId k) (guildId k) (channelId k)
  <> getMemoryKey (userId k') (guildId k') (channelId k') ->
  getLastMessages HISTORY_LIMIT k' limit (clearHistory k st)
  = getLastMessages HISTORY_LIMIT k' limit st.
Proof. intros Hne. by rewrite !read_history, clear_history_other. Qed.

(** [pushMessage] under one key, the trimming included, leaves what
    [getLastMessages] returns under every key with another
    [getMemoryKey] as it was; in the SQLite backend this rests on the
    rowids being distinct. *)
Theorem push_leaves_other_conversations (k k' : Key) rl ct (keep limit : JsVal)
    (now : Z) (st : State) :
  (useMemoryStore st = false -> NoDup (rowid <$> messages st)) ->
  getMemoryKey (userId k) (guildId k) (channelId k)
  <> getMemoryKey (userId k') (guildId k') (channelId k') ->
  getLastMessages HISTORY_LIMIT k' limit (pushMessage HISTORY_LIMIT k rl ct keep now st)
  = getLastMessages HISTORY_LIMIT k' limit st.
Proof. intros Hnd Hne. by rewrite !read_history, push_history_other. Qed.

(** [getLastMessages] never returns more entries than the limit it
    settles on. *)
Theorem read_returns_at_most_limit (k : Key) (limit : JsVal) (st : State) :
  Z.of_nat (length (getLastMessages HISTORY_LIMIT k limit st))
  <= normalizeCount (with_default HISTORY_LIMIT limit) (DEFAULT_KEEP HISTORY_LIMIT).
Proof.
  rewrite read_history. apply slice_last_length, keep_of_positive.
Qed.


(** ** The two backends side by side *)

Inductive Op :=
  | OpPush (k : Key) (rl : Role) (ct : string) (keep : JsVal) (now : Z)
  | OpClear (k : Key).


Definition step (st : State) (op : Op) : State :=
  match op with
  | OpPush k rl ct keep now => pushMessage HISTORY_LIMIT k rl ct keep now st
  | OpClear k => clearHistory k st
  end.









End Laws.

Definition alice : Key := mkKey "alice" (Some "guild") (Some "general").
Definition bob : Key := mkKey "bob" None (Some "dm").

(** A table with a row of each. *)
Definition two_rows : State :=
  mkState false ∅
    [ mkRow 1 "alice" (Some "guild") (Some "general") User "one" 10;
      mkRow 2 "bob" None (Some "dm") User "hi" 10 ].

Lemma clear_leaves_other_conversations_witness :
  getLastMessages None bob JUndefined (clearHistory alice two_rows)
  = getLastMessages None bob JUndefined two_rows.
Proof.
  apply (clear_leaves_other_conversations None alice bob JUndefined two_rows).
  vm_compute. discriminate.
Defined.

Lemma push_leaves_other_conversations_witness :
  getLastMessages None bob JUndefined
    (pushMessage None alice Assistant "two" (JNum (NInt 1)) 11 two_rows)
  = getLastMessages None bob JUndefined two_rows.
Proof.
  apply (push_leaves_other_conversations None alice bob Assistant "two" (JNum (NInt 1))
           JUndefined 11 two_rows).
  - intros _. cbn. apply NoDup_cons. split; [|apply NoDup_singleton].
    intros Hin%list_elem_of_singleton. discriminate Hin.
  - vm_compute. discriminate.
Defined.


(** The text of a key of the in-memory backend names one conversation
    as long as the ids are plain: two plain keys with the same
    [getMemoryKey] are the same key. *)
Theorem getMemoryKey_tells_plain_keys_apart (k k' : Key) :
  plain k = true -> plain k' = true ->
  getMemoryKey (userId k) (guildId k) (channelId k)
  = getMemoryKey (userId k') (guildId k') (channelId k') ->
  userId k = userId k' /\ guildId k = guildId k' /\ channelId k = channelId k'.
Proof. intros Hk Hk' Heq. by rewrite (plain_key_inj k k' Hk Hk' Heq). Qed.

Lemma getMemoryKey_tells_plain_keys_apart_witness :
  userId (mkKey "u1" None (Some "c|1")) = userId (mkKey "u1" None (Some "c|1"))
  /\ guildId (mkKey "u1" None (Some "c|1")) = guildId (mkKey "u1" None (Some "c|1"))
  /\ channelId (mkKey "u1" None (Some "c|1")) = channelId (mkKey "u1" None (Some "c|1")).
Proof.
  apply (getMemoryKey_tells_plain_keys_apart (mkKey "u1" None (Some "c|1"))
           (mkKey "u1" None (Some "c|1"))); reflexivity.
Defined.





(** [DEFAULT_KEEP] is 20 when [HISTORY_LIMIT] is not set.  When it is
    the decimal text of an integer, [parseInt] rounds that integer to the
    Number nearest to it, which leaves an integer below 2^53 as it is,
    and [DEFAULT_KEEP] is the result, raised to 1 if it is less; a text
    of so many digits that the Number is infinite gives 20. *)
Theorem history_limit_setting (z : Z) :
  DEFAULT_KEEP None = 20
  /\ DEFAULT_KEEP (Some (decimal z))
     = match to_double (Z.abs z) with
       | Some v => Z.max 1 (if z <? 0 then - v else v)
       | None => 20
       end
  /\ (Z.abs z < 2 ^ 53 -> DEFAULT_KEEP (Some (decimal z)) = Z.max 1 z)
  /\ DEFAULT_KEEP (Some "9007199254740993") = 9007199254740992
  /\ DEFAULT_KEEP (Some (decimal (10 ^ 309))) = 20.
Proof.
  assert (Hread : DEFAULT_KEEP (Some (decimal z))
                  = match parseInt (decimal z) with
                    | Integer n => Z.max 1 n
                    | NotANumber | Infinite _ => 20
                    end) by reflexivity.
  split; [reflexivity|]. split; [|split; [|split; vm_compute; reflexivity]].
  - rewrite Hread, parseInt_decimal_rounds. by destruct (to_double (Z.abs z)).
  - intros Hz. by rewrite Hread, parseInt_decimal.
Qed.

End StoreLaws.

(** * Laws of the upload client *)

Module UploadLaws.
Import Js Node Attachments UploadFacts Scenarios.







(** Whatever [uploadToGeminiFileAPI] returns is a reference to a stored
    file with a handle and a MIME type that are not empty, the MIME type
    being the caller's when the caller gave one; and it returns only
    when it was given a key.  This holds for both modules, which differ
    in [handle] only. *)
Theorem upload_returns_usable_reference
    (env : Env) (handle : option UploadedFile -> string) (buffer : Buffer)
    (mimeType name apiKey : string) (w w' : World) (p : Part) :
  upload_with env handle buffer mimeType name apiKey w = (Returned p, w') ->
  truthy apiKey = true
  /\ exists uri mime,
       p = FileRefPart uri mime /\ truthy uri = true /\ truthy mime = true
       /\ (truthy mimeType = true -> mime = mimeType).
Proof.
  unfold upload_with. destruct (truthy apiKey); cbn [negb]; [|done].
  intros Hrun. split; [done|]. revert Hrun.
  unfold bind at 1. destruct (fs_mkdtemp _ _ _) as [[tmpDir|?] w1]; [|done].
  unfold bind at 1. destruct (generateTempFilePath _ _ _) as [[fileName|?] w2]; [|done].
  unfold bind at 1. destruct (fs_writeFile _ _ _ _) as [[[]|?] w3]; [|done].
  unfold try_finally.
  destruct (upload_request _ _ _ _ _ _ _) as [o w4] eqn:Hreq.
  destruct (upload_cleanup _ _ _ _) as [[[]|?] w5]; [|done].
  intros [= -> <-]. revert Hreq.
  unfold upload_request, bind.
  destruct (manager_uploadFile _ _ _ _ _) as [[r|?] w6]; [|done].
  destruct (truthy (handle (uploaded_file r))) eqn:Hh; cbn [negb]; [|done].
  intros [= <- <-]. do 2 eexists. split; [reflexivity|]. split; [done|]. split.
  - unfold or_else at 1. destruct (truthy mimeType) eqn:Hm; [done|].
    by apply ParseFacts.or_else_truthy.
  - intros Hm. unfold or_else at 1. by rewrite Hm.
Qed.

Lemma upload_returns_usable_reference_witness :
  truthy "key" = true
  /\ exists uri mime,
       FileRefPart "files/abc" "image/png" = FileRefPart uri mime
       /\ truthy uri = true /\ truthy mime = true
       /\ (truthy "image/png" = true -> mime = "image/png").
Proof.
  apply (upload_returns_usable_reference calm file_handle [] "image/png" "cat.png" "key"
           start
           (mkWorld 5 [EMkdtemp "/tmp/gemini-upload-";
                       EWriteFile "/tmp/gemini-upload-Ab3dE9/cat.png";
                       EUploadFile "/tmp/gemini-upload-Ab3dE9/cat.png" "image/png" "cat.png";
                       EUnlink "/tmp/gemini-upload-Ab3dE9/cat.png";
                       ERm "/tmp/gemini-upload-Ab3dE9"] ∅)).
  vm_compute. reflexivity.
Defined.

(** The world of [calm], except that the disk is full when the file is
    to be written. *)
Definition disk_full : JsError := mkError (Some "ENOSPC") "no space left on device".

Definition full_disk : Env :=
  mkEnv (axios_get calm)
    (fun t => if (t =? 1)%nat then Some disk_full else None)
    (random_suffix calm) (random_hex calm) (upload_api calm) (os_tmpdir calm)
    (path_extname calm) (base64 calm) (utf8 calm).

Definition after_mkdtemp : World :=
  mkWorld 1 [EMkdtemp "/tmp/gemini-upload-"] {[ "/tmp/gemini-upload-Ab3dE9" := KDir ]}.

Definition after_failed_write : World :=
  mkWorld 2 [EMkdtemp "/tmp/gemini-upload-"; EWriteFile "/tmp/gemini-upload-Ab3dE9/cat.png"]
    {[ "/tmp/gemini-upload-Ab3dE9" := KDir ]}.

Lemma upload_write_failure_leaves_directory_witness :
  upload_with full_disk file_handle [] "image/png" "cat.png" "key" start
  = (Threw disk_full, after_failed_write)
  /\ fsys after_failed_write !! "/tmp/gemini-upload-Ab3dE9" = Some KDir.
Proof.
  apply (upload_write_failure_leaves_directory full_disk file_handle [] "image/png"
           "cat.png" "key" "/tmp/gemini-upload-Ab3dE9" "cat.png"
           start after_mkdtemp after_mkdtemp after_failed_write disk_full);
    vm_compute; reflexivity.
Defined.

End UploadLaws.
